(** * weighted_directed_graph: a shallow embedding and its properties

    The container of [weighted_directed_graph.h] keeps its nodes in a
    [std::vector]; every node owns a value and a [std::set] of edges, an
    edge being a pair of a position in that vector and a weight.

    - the vector [m_nodes] is a [list] of nodes, addressed by position;
    - the adjacency [std::set<graph_edge>] is a [gset (nat * W)];
    - iterators over nodes are positions [0 .. length] ([length] is [end()]);
    - a mutating member function takes the graph and returns the new graph
      next to its C++ result;
    - the unchecked read [m_nodes[i]] outside the vector has no defined
      behaviour in the source: functions that perform it return [option],
      and [None] stands for such a read.

    The weight is the source's [double].  The container only stores and
    compares weights, so it is developed for any weight type with decidable
    equality (NaN, which [operator<=>] leaves unordered, and the two
    zeros, which it identifies, are outside the model).  The algorithms of [main.cpp] add weights; there the weights
    are integers, on which binary64 addition and comparison are exact in
    the range used. *)

From stdpp Require Import gmap list sorting.
Set Warnings "-clear-no-such-hyp".

(** ** Data model *)

Record weighted_graph_node (T W : Type) `{Countable W} := mk_node {
  value : T;
  m_adjacentNodeIndices : gset (nat * W)
}.
Arguments mk_node {T W _ _} _ _.
Arguments value {T W _ _} _.
Arguments m_adjacentNodeIndices {T W _ _} _.

Abbreviation weighted_directed_graph T W := (list (weighted_graph_node T W)).

Section container.
Context {T W : Type} `{Countable T, Countable W}.

Local Abbreviation node := (weighted_graph_node T W).
Local Abbreviation graph := (list (weighted_graph_node T W)).
Local Abbreviation adjacency_list_type := (gset (nat * W)).

(** [graph_edge::index], [graph_edge::weight], [graph_edge::decrement].
    The source decrements a [size_t]; it does so on positions beyond
    another position only, which are not [0]. *)
Definition index (e : nat * W) : nat := e.1.
Definition weight (e : nat * W) : W := e.2.
Definition decrement (e : nat * W) : nat * W := (pred (index e), weight e).

(** The node with its adjacency set replaced. *)
Definition with_adjacent (n : node) (a : adjacency_list_type) : node :=
  mk_node (value n) a.

(** [findNode]: [std::find_if] on the value; [None] is [std::end(m_nodes)],
    otherwise the position found and the node there. *)
Definition findNode (g : graph) (node_value : T) : option (nat * node) :=
  list_find (λ n, value n = node_value) g.

Definition size (g : graph) : nat := length g.

(** [insert(T&&)]: the new graph, the position of the returned iterator
    and the [bool] of the returned pair. *)
Definition insert (g : graph) (node_value : T) : graph * nat * bool :=
  match findNode g node_value with
  | Some (i, _) => (g, i, false)
  | None => (g ++ [mk_node node_value ∅], length g, true)
  end.

(** [insert(Iter first, Iter last)]: [std::copy] through an
    [insert_iterator], which calls [insert(hint, value)] on each element;
    the hint is ignored. *)
Definition insert_range (g : graph) (values : list T) : graph :=
  foldl (λ g v, (insert g v).1.1) g values.

Definition insert_edge (g : graph) (from_node_value to_node_value : T)
    (w : W) : graph * bool :=
  match findNode g from_node_value, findNode g to_node_value with
  | Some (from, from_node), Some (to_index, _) =>
      let adjacent := m_adjacentNodeIndices from_node in
      (<[from := with_adjacent from_node ({[ (to_index, w) ]} ∪ adjacent)]> g,
       bool_decide ((to_index, w) ∉ adjacent))
  | _, _ => (g, false)
  end.

(** The body of the loop of [remove_all_links_to] on one adjacency set:
    [std::erase_if] on the edges to [node_index], then the copy to a
    vector, the decrement of the edges beyond [node_index], and the set
    rebuilt from the vector. *)
Definition relink (node_index : nat) (adjacencyIndices : adjacency_list_type)
    : adjacency_list_type :=
  let erased := filter (λ e, index e ≠ node_index) adjacencyIndices in
  set_map (λ e, if decide (node_index < index e) then decrement e else e)
          erased.

Definition remove_all_links_to (g : graph) (node_index : nat) : graph :=
  (λ n, with_adjacent n (relink node_index (m_adjacentNodeIndices n))) <$> g.

(** [erase(const T&)]. *)
Definition erase (g : graph) (node_value : T) : graph * bool :=
  match findNode g node_value with
  | None => (g, false)
  | Some (i, _) => (delete i (remove_all_links_to g i), true)
  end.

(** [erase(const_iterator pos)], for [pos <= end()]; the result is the
    position of the returned iterator. *)
Definition erase_pos (g : graph) (pos : nat) : graph * nat :=
  if decide (pos = length g) then (g, length g)
  else (delete pos (remove_all_links_to g pos), pos).

(** [erase(const_iterator first, const_iterator last)], for
    [first <= last <= end()]: the loop repairs the links for each position
    of the range on the vector as it stands, and one [m_nodes.erase(first,
    last)] follows the loop.  [vector::erase] returns the position that
    follows the removed elements, which is [first] ([last] when the range
    is empty). *)
Definition erase_range (g : graph) (first last : nat) : graph * nat :=
  let relinked :=
    foldl (λ g iter,
             if decide (iter ≠ length g) then remove_all_links_to g iter
             else g)
          g (seq first (last - first)) in
  (take first relinked ++ drop last relinked, first).

Definition erase_edge (g : graph) (from_node_value to_node_value : T)
    : graph * bool :=
  match findNode g from_node_value, findNode g to_node_value with
  | Some (from, from_node), Some (to_index, _) =>
      (<[from := with_adjacent from_node
                   (filter (λ e, index e ≠ to_index)
                           (m_adjacentNodeIndices from_node))]> g,
       true)
  | _, _ => (g, false)
  end.

Definition clear (g : graph) : graph := [].

(** [swap]: the two vectors change place. *)
Definition swap (g other_graph : graph) : graph * graph := (other_graph, g).

(** [get_adjacent_nodes_values(indices)]: the loop over the edges reads
    [m_nodes[edge.index()]] unchecked. *)
Definition get_adjacent_nodes_values_of (g : graph)
    (indices : adjacency_list_type) : option (gset T) :=
  set_fold (λ edge acc,
              values ← acc;
              n ← g !! index edge;
              Some ({[ value n ]} ∪ values))
           (Some ∅) indices.

Definition get_adjacent_nodes_values_and_weights_of (g : graph)
    (indices : adjacency_list_type) : option (gset (T * W)) :=
  set_fold (λ edge acc,
              values ← acc;
              n ← g !! index edge;
              Some ({[ (value n, weight edge) ]} ∪ values))
           (Some ∅) indices.

(** [get_adjacent_nodes_values(const T&)]. *)
Definition get_adjacent_nodes_values (g : graph) (node_value : T)
    : option (gset T) :=
  match findNode g node_value with
  | None => Some ∅
  | Some (_, n) => get_adjacent_nodes_values_of g (m_adjacentNodeIndices n)
  end.

Definition get_adjacent_nodes_values_and_weights (g : graph) (node_value : T)
    : option (gset (T * W)) :=
  match findNode g node_value with
  | None => Some ∅
  | Some (_, n) =>
      get_adjacent_nodes_values_and_weights_of g (m_adjacentNodeIndices n)
  end.

(** [operator==]: the loop over the nodes of the left graph. *)
Fixpoint equal_nodes (g rhs : graph) (nodes : list node) : option bool :=
  match nodes with
  | [] => Some true
  | n :: rest =>
      match findNode rhs (value n) with
      | None => Some false
      | Some (_, rhs_node) =>
          adjacent_values_lhs ←
            get_adjacent_nodes_values_of g (m_adjacentNodeIndices n);
          adjacent_values_rhs ←
            get_adjacent_nodes_values_of rhs (m_adjacentNodeIndices rhs_node);
          if decide (adjacent_values_lhs ≠ adjacent_values_rhs)
          then Some false
          else equal_nodes g rhs rest
      end
  end.

Definition graph_eq (g rhs : graph) : option bool :=
  if decide (length g ≠ length rhs) then Some false
  else equal_nodes g rhs g.

(** The invariants of the data model: node values are unique, and every
    edge addresses a node of the vector. *)
Definition edges_in_range (g : graph) : Prop :=
  Forall (λ n, set_Forall (λ e, index e < length g) (m_adjacentNodeIndices n))
         g.

Definition unique_values (g : graph) : Prop := NoDup (value <$> g).

#[global] Instance edges_in_range_dec (g : graph) : Decision (edges_in_range g).
Proof.
  apply Forall_dec. intros n. apply set_Forall_dec. intros e.
  apply Nat.lt_dec.
Defined.

#[global] Instance unique_values_dec (g : graph) : Decision (unique_values g) :=
  NoDup_dec (value <$> g).

Definition node_values (g : graph) : gset T := list_to_set (value <$> g).

(** A call of one of the public mutating member functions, and a sequence
    of such calls from the empty graph.  For [swap] the call names the other
    graph, whose nodes the graph holds afterwards. *)
Inductive operation : Type :=
  | op_insert (node_value : T)
  | op_insert_range (values : list T)
  | op_insert_edge (from_node_value to_node_value : T) (w : W)
  | op_erase (node_value : T)
  | op_erase_pos (pos : nat)
  | op_erase_range (first last : nat)
  | op_erase_edge (from_node_value to_node_value : T)
  | op_clear
  | op_swap (other_graph : graph).

Definition apply_operation (g : graph) (o : operation) : graph :=
  match o with
  | op_insert v => (insert g v).1.1
  | op_insert_range values => insert_range g values
  | op_insert_edge from to w => (insert_edge g from to w).1
  | op_erase v => (erase g v).1
  | op_erase_pos pos => (erase_pos g pos).1
  | op_erase_range first last => (erase_range g first last).1
  | op_erase_edge from to => (erase_edge g from to).1
  | op_clear => clear g
  | op_swap other_graph => (swap g other_graph).1
  end.

Definition run (ops : list operation) : graph := foldl apply_operation [] ops.

(** The graphs a sequence of allowed calls builds from the empty graph; a
    [swap] takes the nodes of a graph built in the same way. *)
Inductive built_by (allowed : operation → Prop) : graph → Prop :=
  | built_empty : built_by allowed []
  | built_call (g : graph) (o : operation) :
      built_by allowed g →
      allowed o →
      (∀ other_graph, o = op_swap other_graph → built_by allowed other_graph) →
      built_by allowed (apply_operation g o).

(** The calls whose range, when they erase one, is a range
    [first <= last]. *)
Definition ordered_ranges (o : operation) : Prop :=
  match o with
  | op_erase_range first last => first ≤ last
  | _ => True
  end.

(** The calls that erase a range erase one of at most one node. *)
Definition erases_one_at_most (o : operation) : Prop :=
  match o with
  | op_erase_range first last => first ≤ last ≤ S first
  | _ => True
  end.

(** The words of the specification for erasing a range: the nodes of the
    range are erased one at a time, each by [erase(const_iterator)], which
    repairs the links immediately before its removal.  After each removal
    the next node of the range stands at [first]. *)
Definition erase_one_at_a_time (g : graph) (first last : nat) : graph * nat :=
  (Nat.iter (last - first) (λ g, (erase_pos g first).1) g, first).

(** [at(index)]: [None] is the [std::out_of_range] that [vector::at]
    throws. *)
Definition at_index (g : graph) (index : nat) : option T :=
  value <$> g !! index.

(** [insert(const_iterator hint, const T&)]: the hint is ignored and the
    iterator of [insert(node_value)] is returned. *)
Definition insert_hint (g : graph) (hint : nat) (node_value : T)
    : graph * nat :=
  (insert g node_value).1.

(** [operator!=]. *)
Definition graph_ne (g rhs : graph) : option bool := negb <$> graph_eq g rhs.

End container.

Arguments operation T W {_ _}.

(** ** The container on [int] values *)

Section examples.

Local Open Scope Z_scope.

(** Nodes [1, 2, 3] and the edges [1 -> 2], [2 -> 3], built in two orders,
    and the first of them with the further edge [1 -> 3]. *)
Definition built_forwards : weighted_directed_graph Z Z :=
  run [op_insert 1; op_insert 2; op_insert 3;
       op_insert_edge 1 2 5; op_insert_edge 2 3 7].

Definition built_backwards : weighted_directed_graph Z Z :=
  run [op_insert 3; op_insert 2; op_insert 1;
       op_insert_edge 2 3 7; op_insert_edge 1 2 5].

Definition with_extra_edge : weighted_directed_graph Z Z :=
  (insert_edge built_forwards 1 3 4).1.

(** The two graphs of [1 -> 2] with different weights. *)
Definition light_edge : weighted_directed_graph Z Z :=
  run [op_insert 1; op_insert 2; op_insert_edge 1 2 1].

Definition heavy_edge : weighted_directed_graph Z Z :=
  run [op_insert 1; op_insert 2; op_insert_edge 1 2 2].

(** Nodes [1, 2, 3] and the edge [1 -> 3]. *)
Definition edge_to_last : weighted_directed_graph Z Z :=
  run [op_insert 1; op_insert 2; op_insert 3; op_insert_edge 1 3 5].

End examples.

(** ** The shortest-path functions of [main.cpp]

    [main.cpp] runs them on [weighted_directed_graph<int>].  Node values
    and weights are integers here; [std::priority_queue] with
    [std::greater] is a list read at its least pair, [std::map] is a
    [gmap], [std::set] a [gset].  Both functions loop, so they take fuel;
    the output on [std::cout] and [std::cerr] is left out. *)

Module Dijkstra.

Local Open Scope Z_scope.

Inductive outcome (A : Type) : Type :=
  | Returned (a : A)
  | UndefinedRead
  | OutOfFuel.
Arguments Returned {A} a.
Arguments UndefinedRead {A}.
Arguments OutOfFuel {A}.

(** The order of [std::pair]: first components, then second components. *)
Definition pair_lt (p q : Z * Z) : Prop :=
  p.1 < q.1 ∨ (p.1 = q.1 ∧ p.2 < q.2).

Definition pair_le (p q : Z * Z) : Prop :=
  p.1 < q.1 ∨ (p.1 = q.1 ∧ p.2 ≤ q.2).

(** The elements of a [std::set] of pairs in the order a range-for visits
    them. *)
Definition in_order (s : gset (Z * Z)) : list (Z * Z) :=
  merge_sort pair_le (elements s).

(** [pq.top()], [pq.pop()] and [pq.push(x)] on the min-queue of
    (distance, node) pairs. *)
Definition pq_top (pq : list (Z * Z)) : option (Z * Z) :=
  match pq with
  | [] => None
  | p :: rest => Some (foldl (λ least q, if decide (pair_lt q least) then q
                                         else least) p rest)
  end.

Fixpoint remove_first (x : Z * Z) (pq : list (Z * Z)) : list (Z * Z) :=
  match pq with
  | [] => []
  | p :: rest => if decide (p = x) then rest else p :: remove_first x rest
  end.

Definition pq_pop (pq : list (Z * Z)) : list (Z * Z) :=
  match pq_top pq with
  | None => pq
  | Some least => remove_first least pq
  end.

Definition pq_push (x : Z * Z) (pq : list (Z * Z)) : list (Z * Z) := x :: pq.

(** The body of the loop over the neighbours in [dijkstra(graph, start)]. *)
Definition relax (dist : Z) (state : gmap Z Z * list (Z * Z))
    (neighbor : Z * Z) : gmap Z Z * list (Z * Z) :=
  let '(distances, pq) := state in
  let '(neighbor_node, edge_weight) := neighbor in
  let new_dist := dist + edge_weight in
  match distances !! neighbor_node with
  | Some known =>
      if decide (new_dist < known)
      then (<[neighbor_node := new_dist]> distances,
            pq_push (new_dist, neighbor_node) pq)
      else (distances, pq)
  | None => (<[neighbor_node := new_dist]> distances,
             pq_push (new_dist, neighbor_node) pq)
  end.

(** The [while (!pq.empty())] loop of [dijkstra(graph, start)]. *)
Fixpoint dijkstra_loop (fuel : nat) (g : weighted_directed_graph Z Z)
    (pq : list (Z * Z)) (distances : gmap Z Z) (visited : gset Z)
    : outcome (gmap Z Z) :=
  match fuel with
  | O => OutOfFuel
  | S fuel =>
      match pq_top pq with
      | None => Returned distances
      | Some (dist, current_node) =>
          let pq := pq_pop pq in
          if decide (current_node ∈ visited)
          then dijkstra_loop fuel g pq distances visited
          else
            let visited := {[ current_node ]} ∪ visited in
            match get_adjacent_nodes_values_and_weights g current_node with
            | None => UndefinedRead
            | Some adjacent =>
                let '(distances, pq) :=
                  foldl (relax dist) (distances, pq) (in_order adjacent) in
                dijkstra_loop fuel g pq distances visited
            end
      end
  end.

(** [dijkstra(graph, start_node)]. *)
Definition dijkstra (fuel : nat) (g : weighted_directed_graph Z Z)
    (start_node : Z) : outcome (gmap Z Z) :=
  dijkstra_loop fuel g (pq_push (0, start_node) []) {[ start_node := 0 ]} ∅.

(** The body of the loop over the neighbours in
    [dijkstra(graph, start, end)], which also records the previous node. *)
Definition relax_previous (dist current_node : Z)
    (state : gmap Z Z * gmap Z Z * list (Z * Z)) (neighbor : Z * Z)
    : gmap Z Z * gmap Z Z * list (Z * Z) :=
  let '(distances, previous, pq) := state in
  let '(neighbor_node, edge_weight) := neighbor in
  let new_dist := dist + edge_weight in
  match distances !! neighbor_node with
  | Some known =>
      if decide (new_dist < known)
      then (<[neighbor_node := new_dist]> distances,
            <[neighbor_node := current_node]> previous,
            pq_push (new_dist, neighbor_node) pq)
      else (distances, previous, pq)
  | None => (<[neighbor_node := new_dist]> distances,
             <[neighbor_node := current_node]> previous,
             pq_push (new_dist, neighbor_node) pq)
  end.

(** The [while (!pq.empty())] loop of [dijkstra(graph, start, end)]; it
    leaves the map [previous]. *)
Fixpoint search_loop (fuel : nat) (g : weighted_directed_graph Z Z)
    (end_node : Z) (pq : list (Z * Z)) (distances previous : gmap Z Z)
    (visited : gset Z) : outcome (gmap Z Z) :=
  match fuel with
  | O => OutOfFuel
  | S fuel =>
      match pq_top pq with
      | None => Returned previous
      | Some (dist, current_node) =>
          let pq := pq_pop pq in
          if decide (current_node ∈ visited)
          then search_loop fuel g end_node pq distances previous visited
          else
            let visited := {[ current_node ]} ∪ visited in
            if decide (current_node = end_node) then Returned previous
            else
              match get_adjacent_nodes_values_and_weights g current_node with
              | None => UndefinedRead
              | Some adjacent =>
                  let '(distances, previous, pq) :=
                    foldl (relax_previous dist current_node)
                          (distances, previous, pq) (in_order adjacent) in
                  search_loop fuel g end_node pq distances previous visited
              end
      end
  end.

(** [previous[current]]: [std::map::operator[]] stores [int{}], which is
    [0], under a key that is absent. *)
Definition subscript (previous : gmap Z Z) (key : Z) : Z * gmap Z Z :=
  match previous !! key with
  | Some v => (v, previous)
  | None => (0, <[key := 0]> previous)
  end.

(** The loop that walks [previous] back from the end node, and the two
    statements after it. *)
Fixpoint reconstruct (fuel : nat) (start_node : Z) (previous : gmap Z Z)
    (current : Z) (path : list Z) : outcome (list Z) :=
  match fuel with
  | O => OutOfFuel
  | S fuel =>
      if decide (current ≠ start_node)
      then
        let path := path ++ [current] in
        let '(next, previous) := subscript previous current in
        reconstruct fuel start_node previous next path
      else Returned (reverse (path ++ [start_node]))
  end.

(** [dijkstra(graph, start_node, end_node)]. *)
Definition dijkstra_path (fuel : nat) (g : weighted_directed_graph Z Z)
    (start_node end_node : Z) : outcome (list Z) :=
  match findNode g start_node with
  | None => Returned []
  | Some _ =>
      match findNode g end_node with
      | None => Returned []
      | Some _ =>
          match search_loop fuel g end_node (pq_push (0, start_node) [])
                            {[ start_node := 0 ]} ∅ ∅ with
          | Returned previous =>
              reconstruct fuel start_node previous end_node []
          | UndefinedRead => UndefinedRead
          | OutOfFuel => OutOfFuel
          end
      end
  end.

(** The graph of [main.cpp]. *)
Definition main_graph : weighted_directed_graph Z Z :=
  run [op_insert 11; op_insert 22; op_insert 33; op_insert 44;
       op_insert 55; op_insert 66; op_insert 77; op_insert 88;
       op_insert_edge 11 22 2; op_insert_edge 11 55 1;
       op_insert_edge 22 33 3; op_insert_edge 22 66 1;
       op_insert_edge 33 44 1; op_insert_edge 44 88 9;
       op_insert_edge 55 66 1; op_insert_edge 55 77 3;
       op_insert_edge 66 77 1; op_insert_edge 77 44 1].

(** Two nodes and no edge. *)
Definition two_nodes : weighted_directed_graph Z Z :=
  run [op_insert 1; op_insert 2].

End Dijkstra.

(** ** The traversals of [main.cpp]

    [dfs] and [bfs] return nothing; what they do is write the node they
    take from the frontier on [std::cout], one line a node.  The functions
    here return the values written, in the order written.  They run on
    [weighted_directed_graph<int>] like the shortest-path functions, and
    take fuel for their loop. *)

Module Traversal.

Import Dijkstra.
Local Open Scope Z_scope.

(** The elements of a [std::set<int>] in the order a range-for visits
    them. *)
Definition values_in_order (s : gset Z) : list Z :=
  merge_sort Z.le (elements s).

(** The body of the loop over the neighbours in [dfs]: [std::stack::push]
    puts the neighbour on top. *)
Definition push_unvisited (state : list Z * gset Z) (neighbor : Z)
    : list Z * gset Z :=
  let '(stack, visited) := state in
  if decide (neighbor ∈ visited) then (stack, visited)
  else (neighbor :: stack, {[ neighbor ]} ∪ visited).

(** The [while (!stack.empty())] loop of [dfs]; the stack is a list with
    its top first. *)
Fixpoint dfs_loop (fuel : nat) (g : weighted_directed_graph Z Z)
    (stack : list Z) (visited : gset Z) (written : list Z)
    : outcome (list Z) :=
  match fuel with
  | O => OutOfFuel
  | S fuel =>
      match stack with
      | [] => Returned written
      | current_node :: stack =>
          let written := written ++ [current_node] in
          match get_adjacent_nodes_values g current_node with
          | None => UndefinedRead
          | Some adjacent =>
              let '(stack, visited) :=
                foldl push_unvisited (stack, visited)
                      (values_in_order adjacent) in
              dfs_loop fuel g stack visited written
          end
      end
  end.

(** [dfs(graph, start_node)]. *)
Definition dfs (fuel : nat) (g : weighted_directed_graph Z Z) (start_node : Z)
    : outcome (list Z) :=
  dfs_loop fuel g [start_node] {[ start_node ]} [].

(** The body of the loop over the neighbours in [bfs]: [std::queue::push]
    puts the neighbour at the back. *)
Definition enqueue_unvisited (state : list Z * gset Z) (neighbor : Z)
    : list Z * gset Z :=
  let '(queue, visited) := state in
  if decide (neighbor ∈ visited) then (queue, visited)
  else (queue ++ [neighbor], {[ neighbor ]} ∪ visited).

(** The [while (!queue.empty())] loop of [bfs]; the queue is a list with
    its front first. *)
Fixpoint bfs_loop (fuel : nat) (g : weighted_directed_graph Z Z)
    (queue : list Z) (visited : gset Z) (written : list Z)
    : outcome (list Z) :=
  match fuel with
  | O => OutOfFuel
  | S fuel =>
      match queue with
      | [] => Returned written
      | current_node :: queue =>
          let written := written ++ [current_node] in
          match get_adjacent_nodes_values g current_node with
          | None => UndefinedRead
          | Some adjacent =>
              let '(queue, visited) :=
                foldl enqueue_unvisited (queue, visited)
                      (values_in_order adjacent) in
              bfs_loop fuel g queue visited written
          end
      end
  end.

(** [bfs(graph, start_node)]. *)
Definition bfs (fuel : nat) (g : weighted_directed_graph Z Z) (start_node : Z)
    : outcome (list Z) :=
  bfs_loop fuel g [start_node] {[ start_node ]} [].

(** The two loops differ in where the frontier takes a new value; this is
    the loop with that left open, of which each is an instance. *)
Definition add_unvisited (add : Z → list Z → list Z)
    (state : list Z * gset Z) (neighbor : Z) : list Z * gset Z :=
  let '(frontier, visited) := state in
  if decide (neighbor ∈ visited) then (frontier, visited)
  else (add neighbor frontier, {[ neighbor ]} ∪ visited).

Fixpoint walk (add : Z → list Z → list Z) (fuel : nat)
    (g : weighted_directed_graph Z Z) (frontier : list Z) (visited : gset Z)
    (written : list Z) : outcome (list Z) :=
  match fuel with
  | O => OutOfFuel
  | S fuel =>
      match frontier with
      | [] => Returned written
      | current_node :: frontier =>
          let written := written ++ [current_node] in
          match get_adjacent_nodes_values g current_node with
          | None => UndefinedRead
          | Some adjacent =>
              let '(frontier, visited) :=
                foldl (add_unvisited add) (frontier, visited)
                      (values_in_order adjacent) in
              walk add fuel g frontier visited written
          end
      end
  end.

(** A step along an edge, on values: [b] is a neighbour of [a]. *)
Definition value_edge (g : weighted_directed_graph Z Z) (a b : Z) : Prop :=
  ∃ adjacent, get_adjacent_nodes_values g a = Some adjacent ∧ b ∈ adjacent.

(** What holds of the frontier, the set [visited] and the values written
    each time the loop tests its condition. *)
Definition walk_inv (g : weighted_directed_graph Z Z) (start_node : Z)
    (frontier : list Z) (visited : gset Z) (written : list Z) : Prop :=
  NoDup (written ++ frontier) ∧
  visited = list_to_set (written ++ frontier) ∧
  visited ⊆ {[ start_node ]} ∪ node_values g ∧
  head (written ++ frontier) = Some start_node ∧
  (∀ x, x ∈ visited → rtc (value_edge g) start_node x) ∧
  (∀ x y, x ∈ written → value_edge g x y → y ∈ visited).

(** An edge on values with its weight: [(b, w)] is among the neighbours
    of [a]. *)
Definition weighted_edge (g : weighted_directed_graph Z Z) (a b w : Z)
    : Prop :=
  ∃ pairs, get_adjacent_nodes_values_and_weights g a = Some pairs ∧
           (b, w) ∈ pairs.

(** A path of edges from [a] to [b] whose weights add up to [d]. *)
Inductive path_weight (g : weighted_directed_graph Z Z) (a : Z)
    : Z → Z → Prop :=
  | path_here : path_weight g a a 0
  | path_step (b c d w : Z) :
      path_weight g a b d → weighted_edge g b c w →
      path_weight g a c (d + w).

(** [d] is the least weight of a path from [a] to [b]. *)
Definition shortest (g : weighted_directed_graph Z Z) (a b d : Z) : Prop :=
  path_weight g a b d ∧ ∀ d', path_weight g a b d' → d ≤ d'.

(** No edge of the graph has a negative weight. *)
Definition non_negative (g : weighted_directed_graph Z Z) : Prop :=
  ∀ n e, n ∈ g → e ∈ m_adjacentNodeIndices n → 0 ≤ weight e.

(** The same, node by node, in a form that can be decided. *)
Definition non_negative_nodes (g : weighted_directed_graph Z Z) : Prop :=
  Forall (λ n, set_Forall (λ e : nat * Z, (0 ≤ weight e)%Z)
                 (m_adjacentNodeIndices n)) g.

(** The number of edges of the graph, and of those on nodes whose value is
    not in [visited]. *)
Definition edge_count (g : weighted_directed_graph Z Z) : nat :=
  sum_list ((λ n, base.size (m_adjacentNodeIndices n)) <$> g).

Definition unvisited_edges (g : weighted_directed_graph Z Z)
    (visited : gset Z) : nat :=
  sum_list ((λ n, if decide (value n ∈ visited) then 0%nat
                  else base.size (m_adjacentNodeIndices n)) <$> g).

(** What holds of the queue, the map [distances] and the set [visited]
    each time the loop of [dijkstra] tests its condition; inside the loop
    over the neighbours, the edges still to relax are [exempt]. *)
Definition dijkstra_inv (g : weighted_directed_graph Z Z) (start_node : Z)
    (exempt : Z → Z → Z → Prop) (pq : list (Z * Z)) (distances : gmap Z Z)
    (visited : gset Z) : Prop :=
  (∀ k d, distances !! k = Some d → path_weight g start_node k d) ∧
  (∀ d k, (d, k) ∈ pq → ∃ d', distances !! k = Some d' ∧ d' ≤ d) ∧
  (∀ k, k ∈ visited →
        ∃ d, distances !! k = Some d ∧
             ∀ d', path_weight g start_node k d' → d ≤ d') ∧
  (∀ k d, distances !! k = Some d → k ∉ visited → (d, k) ∈ pq) ∧
  (∀ x y w dx, x ∈ visited → distances !! x = Some dx →
               weighted_edge g x y w → ¬ exempt x y w →
               ∃ dy, distances !! y = Some dy ∧ dy ≤ dx + w) ∧
  distances !! start_node = Some 0.

(** The values along a path of edges from [a] to [b] whose weights add up
    to [d], [a] first and [b] last. *)
Inductive route (g : weighted_directed_graph Z Z) (a : Z)
    : list Z → Z → Z → Prop :=
  | route_start : route g a [a] a 0
  | route_step (l : list Z) (b c d w : Z) :
      route g a l b d → weighted_edge g b c w →
      route g a (l ++ [c]) c (d + w).

(** What holds of the map [previous] each time the loop of
    [dijkstra(graph, start, end)] tests its condition: the previous value
    of [k] is a visited value with an edge to [k] that accounts for the
    distance of [k], and it was visited before [k]; [rank] numbers the
    visited values in the order of their visits. *)
Definition previous_inv (g : weighted_directed_graph Z Z) (start_node : Z)
    (distances previous : gmap Z Z) (visited : gset Z) (rank : gmap Z nat)
    : Prop :=
  dom rank = visited ∧
  (∀ x rx, rank !! x = Some rx → (rx < base.size visited)%nat) ∧
  (∀ k x, previous !! k = Some x →
          x ∈ visited ∧
          ∃ w dx dk, distances !! x = Some dx ∧ distances !! k = Some dk ∧
                     weighted_edge g x k w ∧ dk = dx + w) ∧
  (∀ k dk, distances !! k = Some dk → k ≠ start_node →
           is_Some (previous !! k)) ∧
  (∀ k x rk, previous !! k = Some x → rank !! k = Some rk →
             ∃ rx, rank !! x = Some rx ∧ (rx < rk)%nat) ∧
  previous !! start_node = None.

End Traversal.

(** ** Properties of the container *)

Section container_facts.
Context {T W : Type} `{Countable T, Countable W}.

Local Abbreviation node := (weighted_graph_node T W).
Local Abbreviation graph := (list (weighted_graph_node T W)).

Lemma findNode_Some (g : graph) v i n :
  findNode g v = Some (i, n) ↔
  g !! i = Some n ∧ value n = v ∧ ∀ j m, g !! j = Some m → j < i → value m ≠ v.
Proof. unfold findNode. apply (list_find_Some (λ m, value m = v)). Qed.

Lemma findNode_None (g : graph) v :
  findNode g v = None ↔ v ∉ node_values g.
Proof.
  unfold findNode, node_values. rewrite list_find_None, elem_of_list_to_set.
  rewrite list_elem_of_fmap, Forall_forall. naive_solver.
Qed.

Lemma findNode_is_Some (g : graph) v :
  is_Some (findNode g v) ↔ v ∈ node_values g.
Proof.
  rewrite <-not_eq_None_Some, findNode_None.
  destruct (decide (v ∈ node_values g)); naive_solver.
Qed.

Lemma findNode_lt (g : graph) v i n : findNode g v = Some (i, n) → i < length g.
Proof. rewrite findNode_Some. intros [Hi _]. by eapply lookup_lt_Some. Qed.

Lemma findNode_snoc (g : graph) v :
  findNode g v = None →
  findNode (g ++ [mk_node v ∅]) v = Some (length g, mk_node v ∅).
Proof.
  intros Hg. unfold findNode in *. rewrite list_find_app_r by done.
  simpl. by rewrite decide_True.
Qed.

Lemma elem_of_relink (i : nat) (adjacent : gset (nat * W)) (t : nat) (w : W) :
  (t, w) ∈ relink i adjacent ↔
  (t < i ∧ (t, w) ∈ adjacent) ∨ (i ≤ t ∧ (S t, w) ∈ adjacent).
Proof.
  unfold relink. rewrite elem_of_map. split.
  - intros [[t' w'] [Heq [Hne Hin]%elem_of_filter]].
    unfold index, decrement, weight in *; simpl in *.
    case_decide; simplify_eq/=.
    + right. destruct t'; [lia|]. simpl. split; [lia|done].
    + left. split; [lia|done].
  - intros [[Hlt Hin]|[Hle Hin]].
    + exists (t, w). rewrite elem_of_filter. unfold index; simpl.
      rewrite decide_False by lia. split; [done|]. split; [lia|done].
    + exists (S t, w). rewrite elem_of_filter. unfold index, decrement; simpl.
      rewrite decide_True by lia. split; [done|]. split; [lia|done].
Qed.

Lemma remove_all_links_to_lookup (g : graph) (i k : nat) :
  remove_all_links_to g i !! k =
  (λ n, with_adjacent n (relink i (m_adjacentNodeIndices n))) <$> g !! k.
Proof. unfold remove_all_links_to. apply list_lookup_fmap. Qed.

Lemma remove_all_links_to_length (g : graph) (i : nat) :
  length (remove_all_links_to g i) = length g.
Proof. unfold remove_all_links_to. apply length_fmap. Qed.

Lemma get_adjacent_nodes_values_of_Some (g : graph) (indices : gset (nat * W)) :
  set_Forall (λ e, index e < length g) indices →
  ∃ values : gset T,
    get_adjacent_nodes_values_of g indices = Some values ∧
    ∀ v, v ∈ values ↔
         ∃ e n, e ∈ indices ∧ g !! index e = Some n ∧ value n = v.
Proof.
  unfold get_adjacent_nodes_values_of.
  apply (set_fold_ind_L
    (λ (r : option (gset T)) (X : gset (nat * W)),
       set_Forall (λ e, index e < length g) X →
       ∃ values : gset T, r = Some values ∧
         ∀ v, v ∈ values ↔
              ∃ e n, e ∈ X ∧ g !! index e = Some n ∧ value n = v)).
  - intros _. exists ∅. split; [done|]. set_solver.
  - intros e X r Hfresh IH Hall.
    destruct IH as (values & -> & Hvalues).
    { intros e' He'. apply Hall. set_solver. }
    destruct (lookup_lt_is_Some_2 g (index e)) as [n Hn].
    { apply Hall. set_solver. }
    exists ({[ value n ]} ∪ values). simpl. rewrite Hn. simpl.
    split; [done|]. intros v. rewrite elem_of_union, elem_of_singleton, Hvalues.
    split.
    + intros [->|(e' & n' & ? & ? & ?)].
      * exists e, n. set_solver.
      * exists e', n'. set_solver.
    + intros (e' & n' & [->%elem_of_singleton|?]%elem_of_union & Hn' & <-).
      * left. congruence.
      * right. eauto.
Qed.

(** [C1]  Where [v] is stored at position [i], [erase] returns [true] and
    the graph it leaves is the vector with position [i] removed after
    [remove_all_links_to]; that repair keeps every node's value and, in
    every adjacency set, drops the edges to [i], moves each edge to a
    position beyond [i] one position down with its weight, and keeps the
    edges to positions before [i].  On nodes [a, b, c, d] with edges
    [a -> c], [b -> c], [b -> d], the neighbours of [a] after [erase(b)]
    are exactly [{c}]. *)
Theorem erase_relinks_adjacency :
  (∀ (g : graph) (v : T) (i : nat) (n : node),
     findNode g v = Some (i, n) →
     erase g v = (delete i (remove_all_links_to g i), true) ∧
     ∀ (k : nat) (m : node), g !! k = Some m →
       ∃ m', remove_all_links_to g i !! k = Some m' ∧
             value m' = value m ∧
             ∀ (t : nat) (w : W),
               (t, w) ∈ m_adjacentNodeIndices m' ↔
               (t < i ∧ (t, w) ∈ m_adjacentNodeIndices m) ∨
               (i ≤ t ∧ (S t, w) ∈ m_adjacentNodeIndices m)) ∧
  (∀ (a b c d : T) (w1 w2 w3 : W),
     NoDup [a; b; c; d] →
     get_adjacent_nodes_values
       (erase [mk_node a {[ (2, w1) ]};
               mk_node b {[ (2, w2); (3, w3) ]};
               mk_node c ∅;
               mk_node d ∅] b).1 a = Some {[ c ]}).
Proof.
  split.
  - intros g v i n Hfind. split.
    + unfold erase. by rewrite Hfind.
    + intros k m Hk. eexists. rewrite remove_all_links_to_lookup, Hk.
      split; [done|]. split; [done|]. intros t w. apply elem_of_relink.
  - intros a b c d w1 w2 w3 Hnodup.
    apply NoDup_cons in Hnodup as [Ha Hnodup].
    apply NoDup_cons in Hnodup as [Hb _].
    assert (a ≠ b ∧ b ≠ a) as [Hab Hba] by set_solver.
    unfold erase, get_adjacent_nodes_values, findNode. simpl.
    rewrite (decide_False (P := a = b)) by done.
    rewrite (decide_True (P := b = b)) by done. simpl.
    rewrite (decide_True (P := a = a)) by done. simpl.
    match goal with |- get_adjacent_nodes_values_of ?g ?X = _ =>
      destruct (get_adjacent_nodes_values_of_Some g X) as (values & -> & Hv)
    end.
    { intros [t w] [[? Hin]|[? Hin]]%elem_of_relink; unfold index; simpl.
      - lia.
      - apply elem_of_singleton in Hin. simplify_eq. lia. }
    f_equal. apply set_eq. intros v. rewrite Hv, elem_of_singleton. split.
    + intros ([t w] & n & [[? Hin]|[? Hin]]%elem_of_relink & Hn & <-);
        apply elem_of_singleton in Hin; simplify_eq/=; [lia|done].
    + intros ->. exists (1, w1), (mk_node c (relink 1 ∅)).
      rewrite elem_of_relink. split; [|done]. right. split; [lia|set_solver].
Qed.

(** The position [findNode] returns depends on the stored values only. *)
Lemma findNode_index (g : graph) (v : T) :
  fst <$> findNode g v = fst <$> list_find (λ x, x = v) (value <$> g).
Proof.
  unfold findNode. rewrite list_find_fmap, <-option_fmap_compose.
  apply option_fmap_ext. by intros [??].
Qed.

Lemma findNode_same_values (g g' : graph) (v : T) (i : nat) (n : node) :
  value <$> g' = value <$> g →
  findNode g v = Some (i, n) →
  ∃ n', findNode g' v = Some (i, n') ∧ g' !! i = Some n'.
Proof.
  intros Hvalues Hfind.
  pose proof (findNode_index g v) as Hg.
  pose proof (findNode_index g' v) as Hg'.
  rewrite Hvalues, <-Hg, Hfind in Hg'. simpl in Hg'.
  destruct (findNode g' v) as [[i' n']|] eqn:Hfind'; simplify_eq/=.
  exists n'. split; [done|]. by apply findNode_Some in Hfind' as [? _].
Qed.

Lemma with_adjacent_id (n : node) :
  with_adjacent n (m_adjacentNodeIndices n) = n.
Proof. by destruct n. Qed.

(** [C8]  A second [insert] of the same value returns [false] with the
    iterator of the first call and leaves the graph, and so its size, as
    the first call left it. *)
Theorem insert_twice (g : graph) (v : T) :
  insert (insert g v).1.1 v = ((insert g v).1.1, (insert g v).1.2, false) ∧
  size (insert (insert g v).1.1 v).1.1 = size (insert g v).1.1.
Proof.
  assert (insert (insert g v).1.1 v
          = ((insert g v).1.1, (insert g v).1.2, false)) as Hsecond.
  { unfold insert at 2 3 4.
    destruct (findNode g v) as [[i n]|] eqn:Hfind; simpl.
    - unfold insert. by rewrite Hfind.
    - unfold insert. by rewrite (findNode_snoc g v Hfind). }
  split; [done|]. by rewrite Hsecond.
Qed.

(** [C5]  [erase_edge] returns [false] and leaves the graph as it is when
    an endpoint is absent.  With [from] at position [i] and [to] at
    position [j] it returns [true], changes the node at [i] only, and
    leaves there the edges whose target is not [j], whatever their weight;
    when no edge led to [j] the graph is unchanged and the result is still
    [true]; and the same call on the resulting graph returns [true] again
    and changes nothing. *)
Theorem erase_edge_spec (g : graph) (from to : T) :
  (findNode g from = None ∨ findNode g to = None →
   erase_edge g from to = (g, false)) ∧
  (∀ (i j : nat) (from_node to_node : node),
     findNode g from = Some (i, from_node) →
     findNode g to = Some (j, to_node) →
     ∃ g' from_node',
       erase_edge g from to = (g', true) ∧
       length g' = length g ∧
       (∀ k, k ≠ i → g' !! k = g !! k) ∧
       g' !! i = Some from_node' ∧
       value from_node' = from ∧
       (∀ (t : nat) (w : W),
          (t, w) ∈ m_adjacentNodeIndices from_node' ↔
          (t, w) ∈ m_adjacentNodeIndices from_node ∧ t ≠ j) ∧
       ((∀ w, (j, w) ∉ m_adjacentNodeIndices from_node) → g' = g) ∧
       erase_edge g' from to = (g', true)).
Proof.
  split.
  - unfold erase_edge. intros [-> | Hto]; [done|].
    rewrite Hto. by destruct (findNode g from) as [[??]|].
  - intros i j from_node to_node Hfrom Hto.
    pose proof Hfrom as (Hi & Hvalue & _)%findNode_Some.
    set (kept := filter (λ e, index e ≠ j) (m_adjacentNodeIndices from_node)).
    set (g' := <[i := with_adjacent from_node kept]> g).
    assert (value <$> g' = value <$> g) as Hvalues.
    { unfold g'. rewrite list_fmap_insert. apply list_insert_id.
      by rewrite list_lookup_fmap, Hi. }
    assert (g' !! i = Some (with_adjacent from_node kept)) as Hi'.
    { unfold g'. apply list_lookup_insert_eq. by eapply lookup_lt_Some. }
    exists g', (with_adjacent from_node kept).
    split; [unfold erase_edge; by rewrite Hfrom, Hto|].
    split; [apply length_insert|].
    split; [intros k Hk; by apply list_lookup_insert_ne|].
    split; [done|]. split; [done|].
    split.
    { intros t w. simpl. unfold kept. rewrite elem_of_filter.
      unfold index; simpl. tauto. }
    split.
    { intros Hnone. unfold g'. apply list_insert_id. rewrite Hi. f_equal.
      rewrite <-(with_adjacent_id from_node) at 1. f_equal.
      apply set_eq. intros [t w]. unfold kept. rewrite elem_of_filter.
      unfold index; simpl. split; [|tauto]. intros Hin. split; [|done].
      intros ->. by apply (Hnone w). }
    destruct (findNode_same_values g g' from i from_node Hvalues Hfrom)
      as (n1 & Hfrom' & Hn1).
    destruct (findNode_same_values g g' to j to_node Hvalues Hto)
      as (n2 & Hto' & _).
    unfold erase_edge. rewrite Hfrom', Hto'. f_equal.
    apply list_insert_id. rewrite Hn1. f_equal.
    rewrite Hi' in Hn1. simplify_eq. unfold with_adjacent; simpl. f_equal.
    apply set_eq. intros [t w]. unfold kept. rewrite !elem_of_filter. tauto.
Qed.

Lemma erase_range_same (g : graph) (it : nat) : erase_range g it it = (g, it).
Proof.
  unfold erase_range. rewrite Nat.sub_diag. simpl. by rewrite take_drop.
Qed.

(** [C9]  [erase] on the end iterator leaves the graph as it is and
    returns the end iterator; [erase] on an empty range [[it, it)] leaves
    the graph as it is and returns [it]. *)
Theorem erase_end_and_empty_range (g : graph) :
  erase_pos g (length g) = (g, length g) ∧
  ∀ it : nat, erase_range g it it = (g, it).
Proof.
  split.
  - unfold erase_pos. by rewrite decide_True.
  - intros it. apply erase_range_same.
Qed.

(** *** Equality *)

Lemma unique_values_find (g : graph) (n : node) :
  unique_values g → n ∈ g → ∃ i, findNode g (value n) = Some (i, n).
Proof.
  intros Hunique [j Hj]%list_elem_of_lookup.
  destruct (findNode g (value n)) as [[i n']|] eqn:Hfind.
  - exists i. pose proof Hfind as (Hi & Hv & _)%findNode_Some.
    assert (i = j) as ->; [|congruence].
    apply (NoDup_lookup (value <$> g) i j (value n) Hunique);
      rewrite list_lookup_fmap.
    + by rewrite Hi; simpl; rewrite Hv.
    + by rewrite Hj.
  - apply findNode_None in Hfind. destruct Hfind.
    unfold node_values. rewrite elem_of_list_to_set.
    apply list_elem_of_fmap_2. by eapply list_elem_of_lookup_2.
Qed.

Lemma unique_values_length (g : graph) :
  unique_values g → base.size (node_values g) = length g.
Proof.
  intros Hunique. unfold node_values.
  by rewrite size_list_to_set, length_fmap.
Qed.

Lemma equal_nodes_spec (g rhs : graph) (nodes : list node) :
  edges_in_range g → edges_in_range rhs → (∀ n, n ∈ nodes → n ∈ g) →
  ∃ b, equal_nodes g rhs nodes = Some b ∧
       (b = true ↔
        ∀ n, n ∈ nodes →
          ∃ k rhs_node,
            findNode rhs (value n) = Some (k, rhs_node) ∧
            get_adjacent_nodes_values_of g (m_adjacentNodeIndices n) =
            get_adjacent_nodes_values_of rhs (m_adjacentNodeIndices rhs_node)).
Proof.
  unfold edges_in_range. rewrite !Forall_forall.
  intros Hg Hrhs. induction nodes as [|n rest IH]; intros Hsub.
  { exists true. split; [done|]. split; [|done]. intros _ n Hn. inv Hn. }
  simpl. destruct (findNode rhs (value n)) as [[k rhs_node]|] eqn:Hfind.
  - pose proof Hfind as (Hk%list_elem_of_lookup_2 & _)%findNode_Some.
    destruct (get_adjacent_nodes_values_of_Some g (m_adjacentNodeIndices n))
      as (lhs_values & Hlhs & _); [apply Hg, Hsub; left|].
    destruct (get_adjacent_nodes_values_of_Some rhs
                (m_adjacentNodeIndices rhs_node))
      as (rhs_values & Hrhs_values & _); [by apply Hrhs|].
    rewrite Hlhs, Hrhs_values. simpl. case_decide as Hne.
    + exists false. split; [done|]. split; [done|]. intros Hall.
      destruct (Hall n) as (k' & rhs_node' & Hfind' & Heq); [left|].
      rewrite Hfind in Hfind'. simplify_eq. congruence.
    + destruct IH as (b & -> & Hb); [intros m Hm; apply Hsub; by right|].
      exists b. split; [done|]. rewrite Hb. split.
      * intros Hall m [->|Hm]%elem_of_cons; [|by apply Hall].
        exists k, rhs_node. split; [done|].
        rewrite Hlhs, Hrhs_values. f_equal.
        by destruct (decide (lhs_values = rhs_values)).
      * intros Hall m Hm. apply Hall. by right.
  - exists false. split; [done|]. split; [done|]. intros Hall.
    destruct (Hall n) as (k & rhs_node & Hfind' & _); [left|]. congruence.
Qed.

(** [operator==] on two graphs that satisfy the invariants of the data
    model: it is defined, and it holds exactly when the graphs have the
    same node values and every value has the same neighbour values. *)
Lemma graph_eq_spec (g rhs : graph) :
  unique_values g → unique_values rhs →
  edges_in_range g → edges_in_range rhs →
  ∃ b, graph_eq g rhs = Some b ∧
       (b = true ↔
        node_values g = node_values rhs ∧
        ∀ v, v ∈ node_values g →
             get_adjacent_nodes_values g v = get_adjacent_nodes_values rhs v).
Proof.
  intros Hug Hur Hg Hrhs. unfold graph_eq. case_decide as Hlen.
  { exists false. split; [done|]. split; [done|]. intros [Hvalues _].
    destruct Hlen.
    by rewrite <-(unique_values_length g), <-(unique_values_length rhs),
         Hvalues. }
  destruct (equal_nodes_spec g rhs g Hg Hrhs) as (b & Hb & Hiff); [done|].
  exists b. split; [done|]. rewrite Hiff. clear b Hb Hiff. split.
  - intros Hall. split.
    + unfold node_values. apply list_to_set_perm_L.
      apply submseteq_length_Permutation; [|by rewrite !length_fmap, Hlen].
      apply NoDup_submseteq; [done|].
      intros v (n & -> & Hn)%list_elem_of_fmap.
      destruct (Hall n Hn) as (k & rhs_node & (Hk & Hv & _)%findNode_Some & _).
      rewrite <-Hv. apply list_elem_of_fmap_2.
      by eapply list_elem_of_lookup_2.
    + intros v [[i n] Hfind]%findNode_is_Some.
      pose proof Hfind as (Hi%list_elem_of_lookup_2 & <- & _)%findNode_Some.
      destruct (Hall n Hi) as (k & rhs_node & Hfind' & Heq).
      unfold get_adjacent_nodes_values. by rewrite Hfind, Hfind'.
  - intros [Hvalues Hadjacent] n Hn.
    destruct (unique_values_find g n Hug Hn) as [i Hfind].
    assert (value n ∈ node_values g) as Hin.
    { apply findNode_is_Some. by rewrite Hfind. }
    pose proof Hin as Hin'. rewrite Hvalues in Hin'.
    apply findNode_is_Some in Hin' as [[k rhs_node] Hfind'].
    exists k, rhs_node. split; [done|].
    specialize (Hadjacent (value n) Hin).
    unfold get_adjacent_nodes_values in Hadjacent.
    by rewrite Hfind, Hfind' in Hadjacent.
Qed.

(** *** The invariants under the member functions *)

Lemma delete_beyond {A : Type} (l : list A) (i : nat) :
  length l ≤ i → delete i l = l.
Proof.
  intros Hi. rewrite delete_take_drop, take_ge, drop_ge by lia.
  apply app_nil_r.
Qed.

Lemma edges_in_range_alt (g : graph) :
  edges_in_range g ↔
  ∀ n e, n ∈ g → e ∈ m_adjacentNodeIndices n → index e < length g.
Proof.
  unfold edges_in_range, set_Forall. rewrite Forall_forall.
  split; intros Hg n; [intros e Hn He; by apply (Hg n Hn)|].
  intros Hn e He. by apply (Hg n e).
Qed.

Lemma values_remove_all_links_to (g : graph) (i : nat) :
  value <$> remove_all_links_to g i = value <$> g.
Proof.
  unfold remove_all_links_to. rewrite <-list_fmap_compose.
  by apply list_fmap_ext.
Qed.

Lemma values_update (g : graph) (i : nat) (n n' : node) :
  g !! i = Some n → value n' = value n →
  value <$> <[i := n']> g = value <$> g.
Proof.
  intros Hi Hvalue. rewrite list_fmap_insert. apply list_insert_id.
  by rewrite list_lookup_fmap, Hi, Hvalue.
Qed.

Lemma edges_in_range_update (g : graph) (i : nat) (n' : node) :
  edges_in_range g →
  (∀ e, e ∈ m_adjacentNodeIndices n' → index e < length g) →
  edges_in_range (<[i := n']> g).
Proof.
  rewrite !edges_in_range_alt. intros Hg Hn' n e [k Hk]%list_elem_of_lookup He.
  rewrite length_insert.
  apply list_lookup_insert_Some in Hk as [(_ & <- & _)|[_ Hk]]; [by apply Hn'|].
  eapply Hg; [by eapply list_elem_of_lookup_2|done].
Qed.

Lemma unique_values_insert (g : graph) (v : T) :
  unique_values g → unique_values (insert g v).1.1.
Proof.
  unfold insert, unique_values. intros Hg.
  destruct (findNode g v) as [[i n]|] eqn:Hfind; simpl; [done|].
  rewrite fmap_app. apply NoDup_app. split; [done|]. split; [|apply NoDup_singleton].
  intros x Hx ->%list_elem_of_singleton.
  apply findNode_None in Hfind. apply Hfind.
  unfold node_values. by rewrite elem_of_list_to_set.
Qed.

Lemma edges_in_range_insert (g : graph) (v : T) :
  edges_in_range g → edges_in_range (insert g v).1.1.
Proof.
  unfold insert. destruct (findNode g v) as [[i n]|]; simpl; [done|].
  rewrite !edges_in_range_alt. intros Hg n e Hn He. rewrite length_app. simpl.
  apply elem_of_app in Hn as [Hn|Hn].
  - specialize (Hg n e Hn He). lia.
  - apply list_elem_of_singleton in Hn as ->. simpl in He. set_solver.
Qed.

Lemma unique_values_insert_range (g : graph) (values : list T) :
  unique_values g → unique_values (insert_range g values).
Proof.
  unfold insert_range. revert g.
  induction values as [|v values IH]; intros g Hu; [done|].
  simpl. by apply IH, unique_values_insert.
Qed.

Lemma edges_in_range_insert_range (g : graph) (values : list T) :
  edges_in_range g → edges_in_range (insert_range g values).
Proof.
  unfold insert_range. revert g.
  induction values as [|v values IH]; intros g Hr; [done|].
  simpl. by apply IH, edges_in_range_insert.
Qed.

Lemma values_insert_edge (g : graph) (from to : T) (w : W) :
  value <$> (insert_edge g from to w).1 = value <$> g.
Proof.
  unfold insert_edge.
  destruct (findNode g from) as [[i from_node]|] eqn:Hfrom; [|done].
  destruct (findNode g to) as [[j to_node]|]; [|done]. simpl.
  apply findNode_Some in Hfrom as (Hi & _). by erewrite values_update.
Qed.

Lemma edges_in_range_insert_edge (g : graph) (from to : T) (w : W) :
  edges_in_range g → edges_in_range (insert_edge g from to w).1.
Proof.
  intros Hr. unfold insert_edge.
  destruct (findNode g from) as [[i from_node]|] eqn:Hfrom; [|done].
  destruct (findNode g to) as [[j to_node]|] eqn:Hto; [|done]. simpl.
  pose proof Hfrom as (Hi & _)%findNode_Some.
  apply edges_in_range_update; [done|]. simpl.
  intros e [->%elem_of_singleton|He]%elem_of_union.
  - by eapply findNode_lt.
  - rewrite edges_in_range_alt in Hr.
    eapply Hr; [by eapply list_elem_of_lookup_2|done].
Qed.

Lemma values_erase_edge (g : graph) (from to : T) :
  value <$> (erase_edge g from to).1 = value <$> g.
Proof.
  unfold erase_edge.
  destruct (findNode g from) as [[i from_node]|] eqn:Hfrom; [|done].
  destruct (findNode g to) as [[j to_node]|]; [|done]. simpl.
  apply findNode_Some in Hfrom as (Hi & _). by erewrite values_update.
Qed.

Lemma edges_in_range_erase_edge (g : graph) (from to : T) :
  edges_in_range g → edges_in_range (erase_edge g from to).1.
Proof.
  intros Hr. unfold erase_edge.
  destruct (findNode g from) as [[i from_node]|] eqn:Hfrom; [|done].
  destruct (findNode g to) as [[j to_node]|] eqn:Hto; [|done]. simpl.
  pose proof Hfrom as (Hi & _)%findNode_Some.
  apply edges_in_range_update; [done|]. simpl.
  intros e [_ He]%elem_of_filter. rewrite edges_in_range_alt in Hr.
  eapply Hr; [by eapply list_elem_of_lookup_2|done].
Qed.

(** The repair followed by the removal, as [erase(const T&)] and
    [erase(const_iterator)] do them. *)
Lemma unique_values_erase_at (g : graph) (i : nat) :
  unique_values g → unique_values (delete i (remove_all_links_to g i)).
Proof.
  unfold unique_values. intros Hu.
  rewrite list_fmap_delete, values_remove_all_links_to.
  eapply sublist_NoDup; [done|]. apply sublist_delete.
Qed.

Lemma edges_in_range_erase_at (g : graph) (i : nat) :
  edges_in_range g → edges_in_range (delete i (remove_all_links_to g i)).
Proof.
  rewrite !edges_in_range_alt. intros Hr n' [t w] Hn' He.
  apply list_subseteq_delete in Hn'. unfold remove_all_links_to in Hn'.
  apply list_elem_of_fmap in Hn' as (n & -> & Hn). simpl in He.
  assert (∀ t' w', (t', w') ∈ m_adjacentNodeIndices n → t' < length g)
    as Hbound by (intros t' w' Hin; apply (Hr n (t', w') Hn Hin)).
  unfold index; simpl.
  destruct (decide (i < length g)) as [Hlt|Hge].
  - rewrite length_delete, remove_all_links_to_length
      by (apply lookup_lt_is_Some; by rewrite remove_all_links_to_length).
    apply elem_of_relink in He as [[? Hin]|[? Hin]];
      apply Hbound in Hin; lia.
  - rewrite delete_beyond, remove_all_links_to_length
      by (rewrite remove_all_links_to_length; lia).
    apply elem_of_relink in He as [[? Hin]|[? Hin]];
      apply Hbound in Hin; lia.
Qed.

Lemma erase_invariants (g : graph) (v : T) :
  (unique_values g → unique_values (erase g v).1) ∧
  (edges_in_range g → edges_in_range (erase g v).1).
Proof.
  unfold erase. destruct (findNode g v) as [[i n]|]; [|done].
  split; [apply unique_values_erase_at | apply edges_in_range_erase_at].
Qed.

Lemma erase_pos_invariants (g : graph) (pos : nat) :
  (unique_values g → unique_values (erase_pos g pos).1) ∧
  (edges_in_range g → edges_in_range (erase_pos g pos).1).
Proof.
  unfold erase_pos. case_decide; [done|].
  split; [apply unique_values_erase_at | apply edges_in_range_erase_at].
Qed.

Lemma values_relinked (g : graph) (positions : list nat) :
  value <$> foldl (λ g iter,
                     if decide (iter ≠ length g) then remove_all_links_to g iter
                     else g) g positions
  = value <$> g.
Proof.
  revert g. induction positions as [|p positions IH]; intros g; [done|].
  simpl. rewrite IH. case_decide; [apply values_remove_all_links_to|done].
Qed.

(** The range erase keeps the node values unique, whatever the range. *)
Lemma unique_values_erase_range (g : graph) (first last : nat) :
  first ≤ last →
  unique_values g → unique_values (erase_range g first last).1.
Proof.
  intros Hle Hu. unfold erase_range, unique_values in *. simpl.
  rewrite fmap_app, fmap_take, fmap_drop, values_relinked.
  eapply sublist_NoDup; [exact Hu|].
  rewrite <-(take_drop first (value <$> g)) at 3.
  apply sublist_app; [done|].
  replace last with (first + (last - first)) by lia.
  rewrite <-drop_drop. apply sublist_drop.
Qed.

(** A range of one node is erased as [erase(const_iterator)] erases it. *)
Lemma erase_range_one_node (g : graph) (first : nat) :
  erase_range g first (S first) = erase_one_at_a_time g first (S first).
Proof.
  unfold erase_range, erase_one_at_a_time, erase_pos.
  replace (S first - first) with 1 by lia. simpl. f_equal.
  rewrite <-delete_take_drop. case_decide as Hend; case_decide; try done.
  simpl. apply delete_beyond. lia.
Qed.

Lemma erase_range_empty (g : graph) (it : nat) :
  erase_range g it it = erase_one_at_a_time g it it.
Proof.
  rewrite erase_range_same. unfold erase_one_at_a_time.
  by rewrite Nat.sub_diag.
Qed.

(** Every graph built from the empty graph has unique node values. *)
Lemma built_by_unique_values (g : graph) :
  built_by ordered_ranges g → unique_values g.
Proof.
  induction 1 as [|g o _ IH Hallowed _ IHother]; [apply NoDup_nil_2|].
  destruct o as [v|values|from to w|v|pos|first last|from to| |other];
    cbn [apply_operation].
  - by apply unique_values_insert.
  - by apply unique_values_insert_range.
  - unfold unique_values. by rewrite values_insert_edge.
  - by apply erase_invariants.
  - by apply erase_pos_invariants.
  - by apply unique_values_erase_range.
  - unfold unique_values. by rewrite values_erase_edge.
  - apply NoDup_nil_2.
  - by apply IHother.
Qed.

(** Every graph built from the empty graph by calls that erase ranges of
    at most one node has its edges inside the vector. *)
Lemma built_by_edges_in_range (g : graph) :
  built_by erases_one_at_most g → edges_in_range g.
Proof.
  induction 1 as [|g o _ IH Hallowed _ IHother]; [apply Forall_nil_2|].
  destruct o as [v|values|from to w|v|pos|first last|from to| |other];
    cbn [apply_operation].
  - by apply edges_in_range_insert.
  - by apply edges_in_range_insert_range.
  - by apply edges_in_range_insert_edge.
  - by apply erase_invariants.
  - by apply erase_pos_invariants.
  - simpl in Hallowed.
    assert (last = first ∨ last = S first) as [-> | ->] by lia.
    + by rewrite erase_range_same.
    + rewrite erase_range_one_node. unfold erase_one_at_a_time.
      replace (S first - first) with 1 by lia. simpl.
      by apply erase_pos_invariants.
  - by apply edges_in_range_erase_edge.
  - apply Forall_nil_2.
  - by apply IHother.
Qed.

(** *** One more edge *)

Lemma get_adjacent_nodes_values_Some (g : graph) (v : T) (i : nat) (n : node) :
  edges_in_range g → findNode g v = Some (i, n) →
  ∃ values : gset T,
    get_adjacent_nodes_values g v = Some values ∧
    ∀ u, u ∈ values ↔
         ∃ e m, e ∈ m_adjacentNodeIndices n ∧ g !! index e = Some m ∧
                value m = u.
Proof.
  intros Hr Hfind. unfold get_adjacent_nodes_values. rewrite Hfind.
  apply get_adjacent_nodes_values_of_Some.
  pose proof Hfind as (Hi%list_elem_of_lookup_2 & _)%findNode_Some.
  unfold edges_in_range in Hr. rewrite Forall_forall in Hr. by apply Hr.
Qed.

(** An edge to a node that was not a neighbour makes the graph differ, for
    [operator==], from the graph without it. *)
Lemma graph_eq_extra_edge (g : graph) (from to : T) (w : W) :
  unique_values g → edges_in_range g →
  from ∈ node_values g → to ∈ node_values g →
  (∀ values, get_adjacent_nodes_values g from = Some values → to ∉ values) →
  graph_eq (insert_edge g from to w).1 g = Some false ∧
  graph_eq g (insert_edge g from to w).1 = Some false.
Proof.
  intros Hu Hr [[i from_node] Hfrom]%findNode_is_Some
    [[j to_node] Hto]%findNode_is_Some Hnew.
  assert (unique_values (insert_edge g from to w).1) as Hu'
    by (unfold unique_values; by rewrite values_insert_edge).
  pose proof (edges_in_range_insert_edge g from to w Hr) as Hr'.
  assert (∃ g', (insert_edge g from to w).1 = g' ∧
                value <$> g' = value <$> g ∧
                g' !! i = Some (with_adjacent from_node
                  ({[ (j, w) ]} ∪ m_adjacentNodeIndices from_node)))
    as (g' & Hg' & Hvalues & Hi').
  { exists (<[i := with_adjacent from_node
                    ({[ (j, w) ]} ∪ m_adjacentNodeIndices from_node)]> g).
    split; [unfold insert_edge; by rewrite Hfrom, Hto|].
    pose proof Hfrom as (Hi & _)%findNode_Some. split.
    - by erewrite values_update.
    - apply list_lookup_insert_eq. by eapply lookup_lt_Some. }
  rewrite Hg' in *. clear Hg'.
  destruct (findNode_same_values g g' from i from_node Hvalues Hfrom)
    as (n1 & Hfrom' & Hn1).
  destruct (findNode_same_values g g' to j to_node Hvalues Hto)
    as (n2 & Hto' & Hn2).
  rewrite Hi' in Hn1. simplify_eq.
  destruct (get_adjacent_nodes_values_Some g from i from_node Hr Hfrom)
    as (old & Hold & _).
  destruct (get_adjacent_nodes_values_Some g' from i _ Hr' Hfrom')
    as (new & Hnew' & Hnew_spec).
  assert (to ∈ new) as Hin.
  { apply Hnew_spec. exists (j, w), n2. simpl. split; [set_solver|].
    split; [done|]. by apply findNode_Some in Hto' as (_ & ? & _). }
  assert (from ∈ node_values g) as Hfrom_in.
  { apply findNode_is_Some. by rewrite Hfrom. }
  assert (node_values g' = node_values g) as Hsame.
  { unfold node_values. by rewrite Hvalues. }
  assert (get_adjacent_nodes_values g' from ≠ get_adjacent_nodes_values g from)
    as Hdiffer.
  { rewrite Hold, Hnew'. intros [= ->]. by apply (Hnew old). }
  split.
  - destruct (graph_eq_spec g' g Hu' Hu Hr' Hr) as ([] & Hb & Hiff); [|done].
    destruct (proj1 Hiff eq_refl) as [_ Hadjacent].
    destruct Hdiffer. apply Hadjacent. by rewrite Hsame.
  - destruct (graph_eq_spec g g' Hu Hu' Hr Hr') as ([] & Hb & Hiff); [|done].
    destruct (proj1 Hiff eq_refl) as [_ Hadjacent].
    destruct Hdiffer. symmetry. by apply Hadjacent.
Qed.

End container_facts.


(** [C10]  On graphs with unique node values and edges inside the vector,
    [operator==] holds whenever the two graphs have the same node values
    and every value has the same neighbour values, whatever the weights of
    the edges: the graphs of the one edge [1 -> 2] with weight [1] and with
    weight [2] have different adjacency sets and are equal. *)
Theorem graph_eq_ignores_weights :
  (∀ (T W : Type) `(Countable T) `(Countable W)
     (g rhs : weighted_directed_graph T W),
     unique_values g → unique_values rhs →
     edges_in_range g → edges_in_range rhs →
     node_values g = node_values rhs →
     (∀ v, v ∈ node_values g →
           get_adjacent_nodes_values g v = get_adjacent_nodes_values rhs v) →
     graph_eq g rhs = Some true) ∧
  (m_adjacentNodeIndices <$> light_edge ≠ m_adjacentNodeIndices <$> heavy_edge ∧
   get_adjacent_nodes_values_and_weights light_edge 1%Z = Some {[ (2, 1)%Z ]} ∧
   get_adjacent_nodes_values_and_weights heavy_edge 1%Z = Some {[ (2, 2)%Z ]} ∧
   graph_eq light_edge heavy_edge = Some true).
Proof.
  split.
  - intros T W ? ? ? ? g rhs Hug Hur Hg Hrhs Hvalues Hadjacent.
    destruct (graph_eq_spec g rhs Hug Hur Hg Hrhs) as (b & -> & Hb).
    f_equal. by apply Hb.
  - split; [by vm_compute|]. split; [|split]; by vm_compute.
Qed.


(** ** Erasing a range *)

(** [C9]  Erasing the empty range at the first node of a graph of one node
    returns the position of that node, which is not the end iterator. *)
Lemma erase_empty_range_not_end :
  ¬ (erase_range [mk_node 1%Z (∅ : gset (nat * Z))] 0 0
     = ([mk_node 1%Z ∅], length [mk_node 1%Z (∅ : gset (nat * Z))])).
Proof. unfold erase_range. simpl. intros Heq. by inv Heq. Qed.

(** [C2]  From the empty graph: [insert] of [1], [2] and [3],
    [insert_edge(1, 3)], then [erase] of the range of the last two nodes.
    The graph that results has one node, and that node has an edge to
    position [1]. *)
Theorem erase_range_leaves_edge_out_of_range :
  run [op_insert 1%Z; op_insert 2%Z; op_insert 3%Z;
       op_insert_edge 1%Z 3%Z 5%Z; op_erase_range 1 3]
  = [mk_node 1%Z {[ (1, 5%Z) ]}] ∧
  ¬ edges_in_range (run [op_insert 1%Z; op_insert 2%Z; op_insert 3%Z;
                         op_insert_edge 1%Z 3%Z 5%Z; op_erase_range 1 3]).
Proof.
  assert (run [op_insert 1%Z; op_insert 2%Z; op_insert 3%Z;
               op_insert_edge 1%Z 3%Z 5%Z; op_erase_range 1 3]
          = [mk_node 1%Z {[ (1, 5%Z) ]}]) as -> by (by vm_compute).
  split; [done|]. intros Hg%Forall_inv. simpl in Hg.
  specialize (Hg (1, 5%Z)). unfold index in Hg. simpl in Hg.
  assert (1 < 1); [|lia]. apply Hg. by apply elem_of_singleton.
Qed.

(** [C3]  On nodes [1, 2, 3] with the edge [1 -> 3], erasing the range of
    the last two nodes keeps an edge on the node that is left, and erasing
    those two nodes one at a time leaves it without edges. *)
Theorem erase_range_differs_from_one_at_a_time :
  erase_range edge_to_last 1 3 = ([mk_node 1%Z {[ (1, 5%Z) ]}], 1) ∧
  erase_one_at_a_time edge_to_last 1 3 = ([mk_node 1%Z ∅], 1) ∧
  erase_range edge_to_last 1 3 ≠ erase_one_at_a_time edge_to_last 1 3.
Proof. split; [|split]; by vm_compute. Qed.

(** ** The shortest-path functions *)

Section dijkstra_facts.
Import Dijkstra.
Local Open Scope Z_scope.

Lemma dijkstra_path_absent (fuel : nat) (g : weighted_directed_graph Z Z)
    (start_node end_node : Z) :
  start_node ∉ node_values g ∨ end_node ∉ node_values g →
  dijkstra_path fuel g start_node end_node = Returned [].
Proof.
  unfold dijkstra_path. intros [Hs%findNode_None|He%findNode_None].
  - by rewrite Hs.
  - rewrite He. by destruct (findNode g start_node).
Qed.

(** [C6]  On the graph of [main.cpp], with fuel for ten turns of the loop:
    [dijkstra] from [11] returns the map of distances shown, in which [44]
    is at distance [4]; [dijkstra] from [11] to [44] returns the path
    [11, 55, 66, 77, 44]; and a path to a value that is not a node of the
    graph, such as [45], is empty. *)
Theorem dijkstra_main_graph (fuel : nat) :
  (10 ≤ fuel)%nat →
  dijkstra fuel main_graph 11
  = Returned (list_to_map [(11, 0); (22, 2); (33, 5); (44, 4);
                           (55, 1); (66, 2); (77, 3); (88, 13)]) ∧
  (list_to_map [(11, 0); (22, 2); (33, 5); (44, 4);
                (55, 1); (66, 2); (77, 3); (88, 13)] : gmap Z Z) !! 44
  = Some 4 ∧
  dijkstra_path fuel main_graph 11 44 = Returned [11; 55; 66; 77; 44] ∧
  dijkstra_path fuel main_graph 11 45 = Returned [] ∧
  (∀ (g : weighted_directed_graph Z Z) (start_node end_node : Z),
     end_node ∉ node_values g →
     dijkstra_path fuel g start_node end_node = Returned []).
Proof.
  intros Hfuel. replace fuel with (10 + (fuel - 10))%nat by lia.
  generalize (fuel - 10)%nat. intros k.
  split; [by vm_compute|]. split; [by vm_compute|]. split; [by vm_compute|].
  split; [by vm_compute|]. intros g start_node end_node Habsent.
  apply dijkstra_path_absent. by right.
Qed.

(** The walk back ends by pushing the start node: a path it returns is not
    empty, and so neither is one that [dijkstra(graph, start, end)]
    returns when both endpoints are nodes of the graph. *)
Lemma reconstruct_not_empty (fuel : nat) (start_node : Z)
    (previous : gmap Z Z) (current : Z) (path : list Z) :
  reconstruct fuel start_node previous current path ≠ Returned [].
Proof.
  revert previous current path.
  induction fuel as [|fuel IH]; intros previous current path; [done|].
  simpl. case_decide.
  - destruct (subscript previous current) as [next previous']. apply IH.
  - intros [= Hnil]. apply (f_equal length) in Hnil.
    rewrite length_reverse, length_app in Hnil. simpl in Hnil. lia.
Qed.

Lemma dijkstra_path_not_empty (fuel : nat) (g : weighted_directed_graph Z Z)
    (start_node end_node : Z) :
  start_node ∈ node_values g → end_node ∈ node_values g →
  dijkstra_path fuel g start_node end_node ≠ Returned [].
Proof.
  intros [? Hs]%findNode_is_Some [? He]%findNode_is_Some.
  unfold dijkstra_path. rewrite Hs, He.
  destruct (search_loop _ _ _ _ _ _ _); [|done..].
  apply reconstruct_not_empty.
Qed.

Lemma reconstruct_stuck (fuel : nat) (start_node : Z) (previous : gmap Z Z)
    (path : list Z) :
  start_node ≠ 0 →
  previous !! 0 = None ∨ previous !! 0 = Some 0 →
  reconstruct fuel start_node previous 0 path = OutOfFuel.
Proof.
  intros Hstart. revert previous path.
  induction fuel as [|fuel IH]; intros previous path Hzero; [done|].
  simpl. rewrite decide_True by done. unfold subscript.
  destruct Hzero as [Hzero | Hzero]; rewrite Hzero; apply IH.
  - right. apply lookup_insert_eq.
  - by right.
Qed.

(** [C7]  On the graph of the two nodes [1] and [2] without edges, the
    search for a path from [1] to [2] gives no result, whatever the fuel:
    the walk back from [2] reads [previous[2]], which is [0], and stays
    at [0]. *)
Theorem dijkstra_path_unreachable_loops (fuel : nat) :
  dijkstra_path fuel two_nodes 1 2 = OutOfFuel.
Proof.
  destruct fuel as [|[|fuel]]; [by vm_compute..|].
  change (reconstruct (S (S fuel)) 1 ∅ 2 [] = OutOfFuel).
  simpl. unfold subscript. rewrite lookup_empty. simpl.
  rewrite lookup_insert_ne by done. rewrite lookup_empty.
  apply reconstruct_stuck; [done|]. right. apply lookup_insert_eq.
Qed.

End dijkstra_facts.

(** ** The theorems at concrete graphs *)

Lemma erase_relinks_adjacency_witness :
  findNode [mk_node 1%Z {[ (2, 10%Z) ]};
            mk_node 2%Z {[ (2, 20%Z); (3, 30%Z) ]};
            mk_node 3%Z ∅; mk_node 4%Z ∅] 2%Z
  = Some (1, mk_node 2%Z {[ (2, 20%Z); (3, 30%Z) ]}) ∧
  NoDup [1; 2; 3; 4]%Z ∧
  (erase [mk_node 1%Z {[ (2, 10%Z) ]};
          mk_node 2%Z {[ (2, 20%Z); (3, 30%Z) ]};
          mk_node 3%Z ∅; mk_node 4%Z ∅] 2%Z).2 = true ∧
  get_adjacent_nodes_values
    (erase [mk_node 1%Z {[ (2, 10%Z) ]};
            mk_node 2%Z {[ (2, 20%Z); (3, 30%Z) ]};
            mk_node 3%Z ∅; mk_node 4%Z ∅] 2%Z).1 1%Z = Some {[ 3%Z ]}.
Proof.
  assert (findNode [mk_node 1%Z {[ (2, 10%Z) ]};
                    mk_node 2%Z {[ (2, 20%Z); (3, 30%Z) ]};
                    mk_node 3%Z ∅; mk_node 4%Z ∅] 2%Z
          = Some (1, mk_node 2%Z {[ (2, 20%Z); (3, 30%Z) ]})) as Hfind
    by reflexivity.
  assert (NoDup [1; 2; 3; 4]%Z) as Hnodup
    by (apply (bool_decide_unpack _); vm_compute; exact I).
  split; [exact Hfind|]. split; [exact Hnodup|]. split.
  - destruct (proj1 erase_relinks_adjacency _ _ _ _ Hfind) as [Herase _].
    rewrite Herase. reflexivity.
  - exact (proj2 erase_relinks_adjacency 1%Z 2%Z 3%Z 4%Z 10%Z 20%Z 30%Z Hnodup).
Defined.

Lemma erase_edge_spec_witness :
  findNode light_edge 1%Z = Some (0, mk_node 1%Z {[ (1, 1%Z) ]}) ∧
  findNode light_edge 2%Z = Some (1, mk_node 2%Z ∅) ∧
  findNode light_edge 7%Z = None ∧
  erase_edge light_edge 7%Z 2%Z = (light_edge, false) ∧
  ∃ g', erase_edge light_edge 1%Z 2%Z = (g', true) ∧
        erase_edge g' 1%Z 2%Z = (g', true).
Proof.
  assert (findNode light_edge 1%Z = Some (0, mk_node 1%Z {[ (1, 1%Z) ]}))
    as Hfrom by (vm_compute; reflexivity).
  assert (findNode light_edge 2%Z = Some (1, mk_node 2%Z ∅))
    as Hto by (vm_compute; reflexivity).
  assert (findNode light_edge 7%Z = None) as Habsent
    by (vm_compute; reflexivity).
  split; [exact Hfrom|]. split; [exact Hto|]. split; [exact Habsent|]. split.
  - exact (proj1 (erase_edge_spec light_edge 7%Z 2%Z) (or_introl Habsent)).
  - destruct (proj2 (erase_edge_spec light_edge 1%Z 2%Z) _ _ _ _ Hfrom Hto)
      as (g' & from_node' & Hfirst & _ & _ & _ & _ & _ & _ & Hsecond).
    exists g'. split; [exact Hfirst | exact Hsecond].
Defined.


Lemma graph_eq_ignores_weights_witness :
  unique_values light_edge ∧ unique_values heavy_edge ∧
  edges_in_range light_edge ∧ edges_in_range heavy_edge ∧
  node_values light_edge = node_values heavy_edge ∧
  (∀ v, v ∈ node_values light_edge →
        get_adjacent_nodes_values light_edge v =
        get_adjacent_nodes_values heavy_edge v) ∧
  graph_eq light_edge heavy_edge = Some true.
Proof.
  assert (unique_values light_edge) as Hul
    by (apply (bool_decide_unpack _); vm_compute; exact I).
  assert (unique_values heavy_edge) as Huh
    by (apply (bool_decide_unpack _); vm_compute; exact I).
  assert (edges_in_range light_edge) as Hrl
    by (apply (bool_decide_unpack _); vm_compute; exact I).
  assert (edges_in_range heavy_edge) as Hrh
    by (apply (bool_decide_unpack _); vm_compute; exact I).
  assert (node_values light_edge = node_values heavy_edge) as Hvalues
    by (vm_compute; reflexivity).
  assert (∀ v, v ∈ node_values light_edge →
               get_adjacent_nodes_values light_edge v =
               get_adjacent_nodes_values heavy_edge v) as Hadjacent.
  { intros v Hv.
    assert (v = 1%Z ∨ v = 2%Z) as [-> | ->].
    { unfold node_values in Hv. apply elem_of_list_to_set in Hv.
      simpl in Hv. set_solver. }
    - vm_compute; reflexivity.
    - vm_compute; reflexivity. }
  split; [exact Hul|]. split; [exact Huh|]. split; [exact Hrl|].
  split; [exact Hrh|]. split; [exact Hvalues|]. split; [exact Hadjacent|].
  exact (proj1 graph_eq_ignores_weights Z Z _ _ _ _
           light_edge heavy_edge Hul Huh Hrl Hrh Hvalues Hadjacent).
Defined.

Lemma dijkstra_main_graph_witness :
  (10 ≤ 10)%nat ∧
  (45%Z ∉ node_values Dijkstra.main_graph) ∧
  Dijkstra.dijkstra_path 10 Dijkstra.main_graph 11 44
  = Dijkstra.Returned [11; 55; 66; 77; 44]%Z ∧
  Dijkstra.dijkstra_path 10 Dijkstra.main_graph 11 45 = Dijkstra.Returned [].
Proof.
  assert (45%Z ∉ node_values Dijkstra.main_graph) as Habsent
    by (apply (bool_decide_unpack _); vm_compute; exact I).
  destruct (dijkstra_main_graph 10 (le_n 10)) as (_ & _ & Hpath & _ & Hnone).
  split; [exact (le_n 10)|]. split; [exact Habsent|]. split; [exact Hpath|].
  exact (Hnone Dijkstra.main_graph 11%Z 45%Z Habsent).
Defined.

(** ** More on the container: calls and queries *)

Section container_queries.
Context {T W : Type} `{Countable T, Countable W}.

Local Abbreviation node := (weighted_graph_node T W).
Local Abbreviation graph := (list (weighted_graph_node T W)).

Lemma get_adjacent_nodes_values_and_weights_of_Some (g : graph)
    (indices : gset (nat * W)) :
  set_Forall (λ e, index e < length g) indices →
  ∃ values : gset (T * W),
    get_adjacent_nodes_values_and_weights_of g indices = Some values ∧
    ∀ p, p ∈ values ↔
         ∃ e n, e ∈ indices ∧ g !! index e = Some n ∧
                p = (value n, weight e).
Proof.
  unfold get_adjacent_nodes_values_and_weights_of.
  apply (set_fold_ind_L
    (λ (r : option (gset (T * W))) (X : gset (nat * W)),
       set_Forall (λ e, index e < length g) X →
       ∃ values : gset (T * W), r = Some values ∧
         ∀ p, p ∈ values ↔
              ∃ e n, e ∈ X ∧ g !! index e = Some n ∧
                     p = (value n, weight e))).
  - intros _. exists ∅. split; [done|]. set_solver.
  - intros e X r Hfresh IH Hall.
    destruct IH as (values & -> & Hvalues).
    { intros e' He'. apply Hall. set_solver. }
    destruct (lookup_lt_is_Some_2 g (index e)) as [n Hn].
    { apply Hall. set_solver. }
    exists ({[ (value n, weight e) ]} ∪ values). simpl. rewrite Hn. simpl.
    split; [done|]. intros p. rewrite elem_of_union, elem_of_singleton, Hvalues.
    split.
    + intros [->|(e' & n' & ? & ? & ?)].
      * exists e, n. set_solver.
      * exists e', n'. set_solver.
    + intros (e' & n' & [->%elem_of_singleton|?]%elem_of_union & Hn' & ->).
      * left. congruence.
      * right. eauto.
Qed.

Lemma get_adjacent_nodes_values_and_weights_Some (g : graph) (v : T)
    (i : nat) (n : node) :
  edges_in_range g → findNode g v = Some (i, n) →
  ∃ values : gset (T * W),
    get_adjacent_nodes_values_and_weights g v = Some values ∧
    ∀ p, p ∈ values ↔
         ∃ e m, e ∈ m_adjacentNodeIndices n ∧ g !! index e = Some m ∧
                p = (value m, weight e).
Proof.
  intros Hr Hfind. unfold get_adjacent_nodes_values_and_weights.
  rewrite Hfind. apply get_adjacent_nodes_values_and_weights_of_Some.
  pose proof Hfind as (Hi%list_elem_of_lookup_2 & _)%findNode_Some.
  unfold edges_in_range in Hr. rewrite Forall_forall in Hr. by apply Hr.
Qed.

(** The two loops over an adjacency set read the same positions: the set
    of values is the set of first components of the set of pairs. *)
Lemma get_adjacent_nodes_values_of_fst (g : graph) (indices : gset (nat * W)) :
  get_adjacent_nodes_values_of g indices
  = set_map fst <$> get_adjacent_nodes_values_and_weights_of g indices.
Proof.
  unfold get_adjacent_nodes_values_of,
    get_adjacent_nodes_values_and_weights_of, set_fold. simpl.
  induction (elements indices) as [|e es IH]; simpl.
  - by rewrite set_map_empty.
  - rewrite IH.
    match goal with |- context [foldr ?f ?b es] =>
      destruct (foldr f b es) as [pairs|] end; simpl; [|done].
    destruct (g !! index e) as [n|]; simpl; [|done].
    f_equal. by rewrite set_map_union_L, set_map_singleton_L.
Qed.

Lemma adjacent_values_are_first_components_of (g : graph) (v : T) :
  get_adjacent_nodes_values g v
  = set_map fst <$> get_adjacent_nodes_values_and_weights g v.
Proof.
  unfold get_adjacent_nodes_values, get_adjacent_nodes_values_and_weights.
  destruct (findNode g v) as [[i n]|].
  - apply get_adjacent_nodes_values_of_fst.
  - simpl. by rewrite set_map_empty.
Qed.

(** [X1]  For every graph and value, [get_adjacent_nodes_values] is the
    set of the first components of
    [get_adjacent_nodes_values_and_weights]: both are the empty set for a
    value that is absent, and both are undefined on the same graphs. *)
Theorem adjacent_values_are_first_components (g : graph) (v : T) :
  get_adjacent_nodes_values g v
  = set_map fst <$> get_adjacent_nodes_values_and_weights g v.
Proof. apply adjacent_values_are_first_components_of. Qed.

Lemma node_values_snoc (g : graph) (n : node) :
  node_values (g ++ [n]) = {[ value n ]} ∪ node_values g.
Proof.
  unfold node_values. rewrite fmap_app, list_to_set_app_L. simpl. set_solver.
Qed.

(** [X2]  [insert(v)] leaves [v] in the graph at the position it returns,
    where [findNode] finds it and [at] reads it; it returns [true] exactly
    when [v] was absent, and then the graph has one node more, without
    edges; the nodes that were there keep their positions and edges. *)
Theorem insert_spec (g : graph) (v : T) :
  ∃ n, findNode (insert g v).1.1 v = Some ((insert g v).1.2, n) ∧
       at_index (insert g v).1.1 (insert g v).1.2 = Some v ∧
       ((insert g v).2 = true ↔ v ∉ node_values g) ∧
       node_values (insert g v).1.1 = {[ v ]} ∪ node_values g ∧
       length (insert g v).1.1
       = length g + (if (insert g v).2 then 1 else 0) ∧
       (∀ k m, g !! k = Some m → (insert g v).1.1 !! k = Some m) ∧
       ((insert g v).2 = true → m_adjacentNodeIndices n = ∅).
Proof.
  unfold insert. destruct (findNode g v) as [[i n]|] eqn:Hfind; simpl.
  - exists n. pose proof Hfind as (Hi & Hv & _)%findNode_Some.
    assert (v ∈ node_values g) as Hin
      by (apply findNode_is_Some; by rewrite Hfind).
    split; [done|]. split; [unfold at_index; by rewrite Hi; simpl; f_equal|].
    split; [split; [done|by intros []]|].
    split; [set_solver|]. split; [lia|]. split; [done|done].
  - exists (mk_node v ∅). split; [by apply findNode_snoc|].
    split.
    { unfold at_index. rewrite lookup_app_r by done.
      by rewrite Nat.sub_diag. }
    split; [split; [intros _; by apply findNode_None|done]|].
    split; [apply node_values_snoc|].
    split; [rewrite length_app; simpl; lia|].
    split; [intros k m Hk; by apply lookup_app_l_Some|done].
Qed.

Lemma insert_keeps_nodes (g : graph) (v : T) :
  node_values (insert g v).1.1 = {[ v ]} ∪ node_values g ∧
  ∀ k m, g !! k = Some m → (insert g v).1.1 !! k = Some m.
Proof.
  unfold insert. destruct (findNode g v) as [[i n]|] eqn:Hfind; simpl.
  - assert (v ∈ node_values g) as Hin
      by (apply findNode_is_Some; by rewrite Hfind).
    split; [set_solver|done].
  - split; [apply node_values_snoc|].
    intros k m Hk. by apply lookup_app_l_Some.
Qed.

Lemma insert_range_cons (g : graph) (v : T) (values : list T) :
  insert_range g (v :: values) = insert_range (insert g v).1.1 values.
Proof. done. Qed.

(** [X3]  [insert(first, last)] leaves in the graph the values that were
    there and the values of the range, the nodes that were there keep their
    positions, and a range of distinct values that are all new is appended
    in its order. *)
Theorem insert_range_spec (g : graph) (values : list T) :
  node_values (insert_range g values) = node_values g ∪ list_to_set values ∧
  (∀ k m, g !! k = Some m → insert_range g values !! k = Some m) ∧
  (NoDup values → (∀ v, v ∈ values → v ∉ node_values g) →
   value <$> insert_range g values = (value <$> g) ++ values).
Proof.
  revert g. induction values as [|v values IH]; intros g.
  { split; [set_solver|]. split; [done|]. intros _ _.
    by rewrite app_nil_r. }
  rewrite insert_range_cons.
  destruct (IH (insert g v).1.1) as (Hvalues & Hkeep & Happend).
  destruct (insert_keeps_nodes g v) as (Hin & Hkeep1).
  split; [rewrite Hvalues, Hin; set_solver|].
  split; [intros k m Hk; by apply Hkeep, Hkeep1|].
  intros [Hv Hnodup]%NoDup_cons Hfresh.
  rewrite Happend; [|done|].
  - assert (v ∉ node_values g) as Habsent by (apply Hfresh; by left).
    apply findNode_None in Habsent. unfold insert. rewrite Habsent. simpl.
    by rewrite fmap_app, <-app_assoc.
  - intros u Hu. rewrite Hin. apply not_elem_of_union. split.
    + apply not_elem_of_singleton. by intros ->.
    + apply Hfresh. by right.
Qed.

(** *** Edges and the neighbours they give *)

Lemma lookup_same_values (g g' : graph) (t : nat) (m : node) :
  value <$> g' = value <$> g → g' !! t = Some m →
  ∃ m', g !! t = Some m' ∧ value m' = value m.
Proof.
  intros Hvalues Ht.
  assert ((value <$> g) !! t = Some (value m)) as Hv
    by (by rewrite <-Hvalues, list_lookup_fmap, Ht).
  rewrite list_lookup_fmap in Hv.
  destruct (g !! t) as [m'|]; simplify_eq/=. eauto.
Qed.

Lemma node_values_same (g g' : graph) :
  value <$> g' = value <$> g → node_values g' = node_values g.
Proof. unfold node_values. by intros ->. Qed.

Lemma findNode_None_same_values (g g' : graph) (v : T) :
  value <$> g' = value <$> g → findNode g v = None → findNode g' v = None.
Proof.
  intros Hvalues. rewrite !findNode_None. by rewrite (node_values_same g g').
Qed.

(** The loop over an adjacency set reads the values of the nodes only. *)
Lemma get_adjacent_nodes_values_and_weights_of_same_values (g g' : graph)
    (indices : gset (nat * W)) :
  value <$> g' = value <$> g →
  get_adjacent_nodes_values_and_weights_of g' indices
  = get_adjacent_nodes_values_and_weights_of g indices.
Proof.
  intros Hvalues.
  unfold get_adjacent_nodes_values_and_weights_of, set_fold. simpl.
  induction (elements indices) as [|e es IH]; simpl; [done|].
  rewrite IH.
  match goal with |- context [foldr ?f ?b es] =>
    destruct (foldr f b es) as [pairs|] end; simpl; [|done].
  assert (value <$> g' !! index e = value <$> g !! index e) as Hlookup
    by (by rewrite <-!list_lookup_fmap, Hvalues).
  destruct (g' !! index e) as [n'|], (g !! index e) as [n|];
    simplify_eq/=; by rewrite ?Hlookup.
Qed.

Lemma unique_values_lookup (g : graph) (i j : nat) (n m : node) :
  unique_values g → g !! i = Some n → g !! j = Some m →
  value n = value m → i = j.
Proof.
  intros Hu Hi Hj Hv.
  apply (NoDup_lookup (value <$> g) i j (value n) Hu);
    rewrite list_lookup_fmap; [by rewrite Hi|by rewrite Hj, Hv].
Qed.

(** A node whose adjacency set is replaced leaves the neighbours of the
    other values as they were. *)
Lemma update_other_adjacency (g : graph) (v u : T) (i : nat) (n n' : node) :
  findNode g v = Some (i, n) → value n' = v → u ≠ v →
  get_adjacent_nodes_values_and_weights (<[i := n']> g) u
  = get_adjacent_nodes_values_and_weights g u.
Proof.
  intros Hfind Hn' Hu.
  pose proof Hfind as (Hi & Hv & _)%findNode_Some.
  assert (value <$> <[i := n']> g = value <$> g) as Hvalues
    by (apply (values_update g i n n' Hi); congruence).
  unfold get_adjacent_nodes_values_and_weights.
  destruct (findNode g u) as [[k m]|] eqn:Hfu.
  - destruct (findNode_same_values g _ u k m Hvalues Hfu) as (m' & -> & Hk).
    pose proof Hfu as (Hgk & Hvm & _)%findNode_Some.
    assert (i ≠ k) as Hne by (intros ->; congruence).
    rewrite list_lookup_insert_ne, Hgk in Hk by done. simplify_eq.
    by apply get_adjacent_nodes_values_and_weights_of_same_values.
  - by rewrite (findNode_None_same_values g _ u Hvalues Hfu).
Qed.

(** [X4]  [insert_edge] returns [false] and changes nothing when an
    endpoint is absent.  Between two nodes of a graph with its edges inside
    the vector it adds the pair [(to, w)] to the neighbours of [from] and
    leaves the neighbours of every other value and all the values as they
    are; on unique values it returns [true] exactly when the pair was not
    yet among these neighbours; and the same call once more returns [false]
    and changes nothing. *)
Theorem insert_edge_spec (g : graph) (from to : T) (w : W) :
  (from ∉ node_values g ∨ to ∉ node_values g →
   insert_edge g from to w = (g, false)) ∧
  (edges_in_range g → from ∈ node_values g → to ∈ node_values g →
   ∃ old : gset (T * W),
     get_adjacent_nodes_values_and_weights g from = Some old ∧
     get_adjacent_nodes_values_and_weights (insert_edge g from to w).1 from
     = Some ({[ (to, w) ]} ∪ old) ∧
     (∀ u, u ≠ from →
        get_adjacent_nodes_values_and_weights (insert_edge g from to w).1 u
        = get_adjacent_nodes_values_and_weights g u) ∧
     value <$> (insert_edge g from to w).1 = value <$> g ∧
     (unique_values g →
      ((insert_edge g from to w).2 = true ↔ (to, w) ∉ old)) ∧
     insert_edge (insert_edge g from to w).1 from to w
     = ((insert_edge g from to w).1, false)).
Proof.
  split.
  { unfold insert_edge. intros [Hf%findNode_None|Ht%findNode_None].
    - by rewrite Hf.
    - rewrite Ht. by destruct (findNode g from) as [[??]|]. }
  intros Hr [[i from_node] Hfrom]%findNode_is_Some
    [[j to_node] Hto]%findNode_is_Some.
  pose proof Hfrom as (Hi & Hvfrom & _)%findNode_Some.
  pose proof Hto as (Hj & Hvto & _)%findNode_Some.
  pose proof (edges_in_range_insert_edge g from to w Hr) as Hr'.
  pose proof (values_insert_edge g from to w) as Hvalues.
  set (adjacent := m_adjacentNodeIndices from_node) in *.
  set (from_node' := with_adjacent from_node ({[ (j, w) ]} ∪ adjacent)).
  assert (insert_edge g from to w
          = (<[i := from_node']> g, bool_decide ((j, w) ∉ adjacent))) as Hcall
    by (unfold insert_edge; by rewrite Hfrom, Hto).
  rewrite Hcall in *. simpl in *.
  set (g' := <[i := from_node']> g) in *.
  assert (g' !! i = Some from_node') as Hi'
    by (apply list_lookup_insert_eq; by eapply lookup_lt_Some).
  destruct (findNode_same_values g g' from i from_node Hvalues Hfrom)
    as (n1 & Hfrom' & Hn1).
  destruct (findNode_same_values g g' to j to_node Hvalues Hto)
    as (n2 & Hto' & Hn2).
  rewrite Hi' in Hn1. injection Hn1 as <-.
  destruct (get_adjacent_nodes_values_and_weights_Some g from i from_node
              Hr Hfrom) as (old & Hold & Hold_spec).
  destruct (get_adjacent_nodes_values_and_weights_Some g' from i from_node'
              Hr' Hfrom') as (new & Hnew & Hnew_spec).
  exists old. split; [done|]. split.
  { rewrite Hnew. f_equal. apply set_eq. intros p.
    rewrite Hnew_spec, elem_of_union, elem_of_singleton, Hold_spec.
    simpl. split.
    - intros (e & m & [->%elem_of_singleton|He]%elem_of_union & Hm & ->).
      + left. unfold index, weight in *; simpl in *.
        destruct (lookup_same_values g g' j m Hvalues Hm) as (m' & ? & <-).
        by simplify_eq.
      + right. destruct (lookup_same_values g g' _ m Hvalues Hm)
          as (m' & ? & <-). eauto.
    - intros [->|(e & m & He & Hm & ->)].
      + exists (j, w), n2. split; [set_solver|]. split; [done|].
        unfold weight; simpl. f_equal.
        by apply findNode_Some in Hto' as (_ & ? & _).
      + destruct (lookup_same_values g' g (index e) m) as (m' & ? & <-);
          [done..|].
        exists e, m'. split; [set_solver|done]. }
  split.
  { intros u Hu. by apply (update_other_adjacency g from u i from_node). }
  split; [done|]. split.
  { intros Hu. rewrite bool_decide_eq_true, Hold_spec. split.
    - intros Hnot (e & m & He & Hm & [= Hvm Hw]). destruct Hnot.
      assert (index e = j) as Hej
        by (eapply (unique_values_lookup g); [done..|congruence]).
      destruct e as [t w']. unfold index, weight in *; simpl in *.
      by subst.
    - intros Hnot Hin. destruct Hnot. exists (j, w), to_node.
      split; [done|]. split; [done|]. unfold weight; simpl. by rewrite Hvto. }
  unfold insert_edge. rewrite Hfrom', Hto'. f_equal.
  - apply list_insert_id. rewrite Hi'. f_equal.
    unfold with_adjacent, from_node'; simpl. f_equal. set_solver.
  - apply bool_decide_eq_false. simpl. set_solver.
Qed.

Lemma set_map_fst_filter_ne (pairs : gset (T * W)) (v : T) :
  set_map fst (filter (λ p : T * W, p.1 ≠ v) pairs)
  = (set_map fst pairs : gset T) ∖ {[ v ]}.
Proof.
  apply set_eq. intros x.
  rewrite elem_of_difference, !elem_of_map, not_elem_of_singleton. split.
  - intros ([x' w'] & -> & [Hne Hin]%elem_of_filter). simpl in *.
    split; [|done]. by exists (x', w').
  - intros [([x' w'] & -> & Hin) Hne]. simpl in *.
    exists (x', w'). split; [done|]. by apply elem_of_filter.
Qed.

(** [X5]  Between two nodes of a graph with unique values and its edges
    inside the vector, [erase_edge(from, to)] takes the pairs of [to], of
    every weight, out of the neighbours of [from], so that [to] is no
    neighbour of [from] afterwards, and leaves the neighbours of every
    other value and all the values as they are. *)
Theorem erase_edge_adjacency (g : graph) (from to : T) :
  unique_values g → edges_in_range g →
  from ∈ node_values g → to ∈ node_values g →
  ∃ old : gset (T * W),
    get_adjacent_nodes_values_and_weights g from = Some old ∧
    get_adjacent_nodes_values_and_weights (erase_edge g from to).1 from
    = Some (filter (λ p, p.1 ≠ to) old) ∧
    get_adjacent_nodes_values (erase_edge g from to).1 from
    = Some (set_map fst old ∖ {[ to ]}) ∧
    (∀ u, u ≠ from →
       get_adjacent_nodes_values_and_weights (erase_edge g from to).1 u
       = get_adjacent_nodes_values_and_weights g u) ∧
    value <$> (erase_edge g from to).1 = value <$> g.
Proof.
  intros Hu Hr [[i from_node] Hfrom]%findNode_is_Some
    [[j to_node] Hto]%findNode_is_Some.
  pose proof Hfrom as (Hi & Hvfrom & _)%findNode_Some.
  pose proof Hto as (Hj & Hvto & _)%findNode_Some.
  pose proof (edges_in_range_erase_edge g from to Hr) as Hr'.
  pose proof (values_erase_edge g from to) as Hvalues.
  set (adjacent := m_adjacentNodeIndices from_node) in *.
  set (from_node' :=
         with_adjacent from_node (filter (λ e, index e ≠ j) adjacent)).
  assert (erase_edge g from to = (<[i := from_node']> g, true)) as Hcall
    by (unfold erase_edge; by rewrite Hfrom, Hto).
  rewrite Hcall in *. simpl in *.
  set (g' := <[i := from_node']> g) in *.
  assert (g' !! i = Some from_node') as Hi'
    by (apply list_lookup_insert_eq; by eapply lookup_lt_Some).
  destruct (findNode_same_values g g' from i from_node Hvalues Hfrom)
    as (n1 & Hfrom' & Hn1).
  rewrite Hi' in Hn1. injection Hn1 as <-.
  destruct (get_adjacent_nodes_values_and_weights_Some g from i from_node
              Hr Hfrom) as (old & Hold & Hold_spec).
  destruct (get_adjacent_nodes_values_and_weights_Some g' from i from_node'
              Hr' Hfrom') as (new & Hnew & Hnew_spec).
  assert (new = filter (λ p, p.1 ≠ to) old) as ->.
  { apply set_eq. intros p. rewrite Hnew_spec, elem_of_filter, Hold_spec.
    simpl. split.
    - intros (e & m & [Hne He]%elem_of_filter & Hm & ->).
      destruct (lookup_same_values g g' _ m Hvalues Hm) as (m' & Hm' & <-).
      split; [|eauto]. simpl. intros Hv. destruct Hne.
      eapply (unique_values_lookup g); [done..|congruence].
    - intros [Hne (e & m & He & Hm & ->)]. simpl in Hne.
      destruct (lookup_same_values g' g (index e) m) as (m' & ? & <-);
        [done..|].
      exists e, m'. split; [|done]. apply elem_of_filter. split; [|done].
      intros Hej. destruct Hne. rewrite Hej, Hj in Hm. by simplify_eq. }
  exists old. split; [done|]. split; [done|]. split.
  { rewrite adjacent_values_are_first_components_of, Hnew. simpl.
    by rewrite set_map_fst_filter_ne. }
  split; [|done].
  intros u Hne. by apply (update_other_adjacency g from u i from_node).
Qed.

(** [X6]  An edge that [insert_edge] adds is gone after [erase_edge] on
    the same endpoints: the graph is the one [erase_edge] makes of the
    graph without the new edge. *)
Theorem erase_edge_after_insert_edge (g : graph) (from to : T) (w : W) :
  (erase_edge (insert_edge g from to w).1 from to).1
  = (erase_edge g from to).1.
Proof.
  destruct (findNode g from) as [[i from_node]|] eqn:Hfrom;
    [|by unfold insert_edge; rewrite Hfrom].
  destruct (findNode g to) as [[j to_node]|] eqn:Hto;
    [|by unfold insert_edge; rewrite Hfrom, Hto].
  pose proof Hfrom as (Hi & _)%findNode_Some.
  pose proof (values_insert_edge g from to w) as Hvalues.
  destruct (findNode_same_values g _ from i from_node Hvalues Hfrom)
    as (n1 & Hfrom' & Hn1).
  destruct (findNode_same_values g _ to j to_node Hvalues Hto)
    as (n2 & Hto' & _).
  unfold erase_edge at 1. rewrite Hfrom', Hto'. simpl.
  unfold erase_edge. rewrite Hfrom, Hto. simpl.
  unfold insert_edge in Hn1 |- *. rewrite Hfrom, Hto in Hn1 |- *.
  simpl in *.
  rewrite list_lookup_insert_eq in Hn1 by (by eapply lookup_lt_Some).
  injection Hn1 as <-. rewrite list_insert_insert_eq. f_equal.
  unfold with_adjacent; simpl. f_equal.
  apply set_eq. intros [t w']. rewrite !elem_of_filter, elem_of_union,
    elem_of_singleton. unfold index; simpl. split.
  - intros [Hne [[= -> ->]|Hin]]; [done|by split].
  - intros [Hne Hin]. split; [done|by right].
Qed.

(** *** Erasing a node *)

Lemma filter_ne_absent (l : list T) (v : T) :
  v ∉ l → filter (λ x, x ≠ v) l = l.
Proof.
  induction l as [|x l IH]; intros Hv; [done|].
  apply not_elem_of_cons in Hv as [Hne Hv].
  rewrite filter_cons_True by done. by rewrite IH.
Qed.

Lemma delete_unique (l : list T) (i : nat) (v : T) :
  NoDup l → l !! i = Some v → delete i l = filter (λ x, x ≠ v) l.
Proof.
  intros Hl. revert i. induction Hl as [|x l Hx Hl IH]; intros i Hi; [done|].
  destruct i as [|i]; simplify_eq/=.
  - rewrite filter_cons_False by (by intros []).
    by rewrite filter_ne_absent.
  - rewrite filter_cons_True.
    + by rewrite (IH i).
    + intros ->. apply Hx. by eapply list_elem_of_lookup_2.
Qed.

Lemma erase_at_lookup (g : graph) (i t : nat) :
  delete i (remove_all_links_to g i) !! t
  = (λ n, with_adjacent n (relink i (m_adjacentNodeIndices n)))
      <$> g !! (if decide (t < i) then t else S t).
Proof.
  case_decide.
  - by rewrite list_lookup_delete_lt, remove_all_links_to_lookup.
  - by rewrite list_lookup_delete_ge, remove_all_links_to_lookup by lia.
Qed.

Lemma values_erase_at (g : graph) (i : nat) (n : node) :
  unique_values g → g !! i = Some n →
  value <$> delete i (remove_all_links_to g i)
  = filter (λ x, x ≠ value n) (value <$> g).
Proof.
  intros Hu Hi. rewrite list_fmap_delete, values_remove_all_links_to.
  apply delete_unique; [done|]. by rewrite list_lookup_fmap, Hi.
Qed.

Lemma node_values_filter_ne (g g' : graph) (v : T) :
  value <$> g' = filter (λ x, x ≠ v) (value <$> g) →
  node_values g' = node_values g ∖ {[ v ]}.
Proof.
  intros Hvalues. unfold node_values. rewrite Hvalues. apply set_eq.
  intros x. rewrite elem_of_difference, !elem_of_list_to_set,
    list_elem_of_filter, not_elem_of_singleton. tauto.
Qed.

(** [X7]  [erase(v)] returns [false] and changes nothing when [v] is
    absent.  On a graph with unique values that holds [v] it returns
    [true], the values left are the other values in their order, one fewer,
    [v] is no value of the graph any more, and a second [erase(v)] returns
    [false]. *)
Theorem erase_spec (g : graph) (v : T) :
  (v ∉ node_values g → erase g v = (g, false)) ∧
  (unique_values g → v ∈ node_values g →
   (erase g v).2 = true ∧
   value <$> (erase g v).1 = filter (λ x, x ≠ v) (value <$> g) ∧
   node_values (erase g v).1 = node_values g ∖ {[ v ]} ∧
   length (erase g v).1 = length g - 1 ∧
   erase (erase g v).1 v = ((erase g v).1, false)).
Proof.
  split.
  { intros Hv%findNode_None. unfold erase. by rewrite Hv. }
  intros Hu [[i n] Hfind]%findNode_is_Some.
  pose proof Hfind as (Hi & Hv & _)%findNode_Some.
  assert (erase g v = (delete i (remove_all_links_to g i), true)) as ->
    by (unfold erase; by rewrite Hfind).
  simpl.
  assert (value <$> delete i (remove_all_links_to g i)
          = filter (λ x, x ≠ v) (value <$> g)) as Hvalues
    by (rewrite <-Hv; by apply values_erase_at).
  pose proof (node_values_filter_ne g _ v Hvalues) as Hset.
  split; [done|]. split; [done|]. split; [done|]. split.
  { rewrite length_delete, remove_all_links_to_length; [done|].
    apply lookup_lt_is_Some. rewrite remove_all_links_to_length.
    by eapply lookup_lt_Some. }
  unfold erase.
  assert (findNode (delete i (remove_all_links_to g i)) v = None) as ->; [|done].
  apply findNode_None. rewrite Hset. set_solver.
Qed.

Lemma erase_at_find (g : graph) (i k : nat) (m : node) (u : T) :
  unique_values g → findNode g u = Some (k, m) → k ≠ i →
  ∃ k', findNode (delete i (remove_all_links_to g i)) u
        = Some (k', with_adjacent m (relink i (m_adjacentNodeIndices m))).
Proof.
  intros Hu Hfind Hne.
  pose proof Hfind as (Hk & Hv & _)%findNode_Some.
  set (g' := delete i (remove_all_links_to g i)).
  assert (u ∈ node_values g') as [[k' m'] Hfind']%findNode_is_Some.
  { unfold node_values. rewrite elem_of_list_to_set, list_elem_of_fmap.
    exists (with_adjacent m (relink i (m_adjacentNodeIndices m))).
    split; [done|]. apply list_elem_of_lookup.
    exists (if decide (k < i) then k else pred k).
    unfold g'. rewrite erase_at_lookup.
    replace (if decide ((if decide (k < i) then k else pred k) < i)
             then if decide (k < i) then k else pred k
             else S (if decide (k < i) then k else pred k)) with k
      by (repeat case_decide; lia).
    by rewrite Hk. }
  exists k'. rewrite Hfind'. do 2 f_equal.
  apply findNode_Some in Hfind' as (Hk' & Hv' & _).
  unfold g' in Hk'. rewrite erase_at_lookup in Hk'.
  destruct (g !! (if decide (k' < i) then k' else S k')) as [n|] eqn:Hn;
    simplify_eq/=.
  assert ((if decide (k' < i) then k' else S k') = k) as Hsame
    by (by eapply (unique_values_lookup g)).
  rewrite Hsame, Hk in Hn. by simplify_eq.
Qed.

(** [X8]  On a graph with unique values and its edges inside the vector
    that holds [v], every other value has after [erase(v)] the neighbours
    it had, with their weights, except [v]: the renumbering of the edges
    keeps each edge on the node it led to. *)
Theorem erase_adjacency (g : graph) (v u : T) :
  unique_values g → edges_in_range g → v ∈ node_values g → u ≠ v →
  ∃ old : gset (T * W),
    get_adjacent_nodes_values_and_weights g u = Some old ∧
    get_adjacent_nodes_values_and_weights (erase g v).1 u
    = Some (filter (λ p, p.1 ≠ v) old) ∧
    get_adjacent_nodes_values (erase g v).1 u
    = Some (set_map fst old ∖ {[ v ]}).
Proof.
  intros Hu Hr [[i nv] Hfind]%findNode_is_Some Hne.
  pose proof Hfind as (Hi & Hv & _)%findNode_Some.
  unfold erase. rewrite Hfind. simpl.
  set (g' := delete i (remove_all_links_to g i)).
  assert (∃ old : gset (T * W),
            get_adjacent_nodes_values_and_weights g u = Some old ∧
            get_adjacent_nodes_values_and_weights g' u
            = Some (filter (λ p, p.1 ≠ v) old)) as (old & Hold & Hnew).
  { destruct (findNode g u) as [[k m]|] eqn:Hfu.
    - pose proof Hfu as (Hk & Hvm & _)%findNode_Some.
      assert (k ≠ i) as Hki by (intros ->; congruence).
      destruct (erase_at_find g i k m u Hu Hfu Hki) as (k' & Hfu').
      pose proof (edges_in_range_erase_at g i Hr) as Hr'.
      destruct (get_adjacent_nodes_values_and_weights_Some g u k m Hr Hfu)
        as (old & Hold & Hold_spec).
      destruct (get_adjacent_nodes_values_and_weights_Some g' u k' _ Hr' Hfu')
        as (new & Hnew & Hnew_spec).
      exists old. split; [done|]. rewrite Hnew. f_equal.
      apply set_eq. intros p.
      rewrite Hnew_spec, elem_of_filter, Hold_spec. simpl. split.
      + intros ([t w] & n' & He & Hn' & ->). unfold g' in Hn'.
        rewrite erase_at_lookup in Hn'. unfold index, weight in *.
        simpl in *.
        destruct (g !! (if decide (t < i) then t else S t)) as [n|] eqn:Hn;
          simplify_eq/=.
        split.
        * intros Hvn. assert ((if decide (t < i) then t else S t) = i)
            as Hti by (by eapply (unique_values_lookup g)).
          case_decide; lia.
        * apply elem_of_relink in He as [[Hlt He]|[Hge He]].
          -- rewrite decide_True in Hn by done.
             exists (t, w), n. by split.
          -- rewrite decide_False in Hn by lia.
             exists (S t, w), n. by split.
      + intros [Hpv ([t w] & n & He & Hn & ->)]. unfold index, weight in *.
        simpl in *.
        assert (t ≠ i) as Hti by (intros ->; congruence).
        exists ((if decide (t < i) then t else pred t), w),
          (with_adjacent n (relink i (m_adjacentNodeIndices n))).
        unfold index, weight; simpl. split; [|split; [|done]].
        * apply elem_of_relink. case_decide; [left; by split|right].
          split; [lia|]. by replace (S (pred t)) with t by lia.
        * unfold g'. rewrite erase_at_lookup.
          replace (if decide ((if decide (t < i) then t else pred t) < i)
                   then if decide (t < i) then t else pred t
                   else S (if decide (t < i) then t else pred t)) with t
            by (repeat case_decide; lia).
          by rewrite Hn.
    - exists ∅. unfold get_adjacent_nodes_values_and_weights.
      rewrite Hfu. split; [done|].
      assert (findNode g' u = None) as ->.
      { apply findNode_None.
        rewrite (node_values_filter_ne g g' v)
          by (rewrite <-Hv; by apply values_erase_at).
        apply findNode_None in Hfu. set_solver. }
      f_equal. }
  exists old. split; [done|]. split; [done|].
  rewrite adjacent_values_are_first_components_of, Hnew. simpl.
  by rewrite set_map_fst_filter_ne.
Qed.

(** [X9]  On a graph with unique values, [erase(pos)] on the position of
    a node is [erase] of the value of that node, and returns [pos]. *)
Theorem erase_pos_is_erase_value (g : graph) (pos : nat) (n : node) :
  unique_values g → g !! pos = Some n →
  erase_pos g pos = ((erase g (value n)).1, pos).
Proof.
  intros Hu Hpos.
  destruct (unique_values_find g n Hu) as [i Hfind];
    [by eapply list_elem_of_lookup_2|].
  pose proof Hfind as (Hi & _)%findNode_Some.
  assert (i = pos) as -> by (by eapply (unique_values_lookup g)).
  unfold erase_pos, erase. rewrite Hfind. simpl.
  apply lookup_lt_Some in Hpos. rewrite decide_False by lia. done.
Qed.

(** [X10]  Erasing the range of the one node at [first] is
    [erase(first)]: the same graph and the same iterator. *)
Theorem erase_range_of_one_node (g : graph) (first : nat) :
  first < length g →
  erase_range g first (S first) = erase_pos g first.
Proof.
  intros Hfirst. unfold erase_range, erase_pos.
  replace (S first - first) with 1 by lia. simpl.
  rewrite (decide_True (P := first ≠ length g)) by lia.
  rewrite (decide_False (P := first = length g)) by lia.
  by rewrite <-delete_take_drop.
Qed.

(** [X19]  Erasing a range [first <= last] takes the nodes of the range
    out of the vector and no other: the values left are those before
    [first] and those from [last] on, in their order, and the iterator
    returned stands at [first]. *)
Theorem erase_range_values (g : graph) (first last : nat) :
  first ≤ last →
  value <$> (erase_range g first last).1
  = take first (value <$> g) ++ drop last (value <$> g) ∧
  (erase_range g first last).2 = first.
Proof.
  intros Hle. unfold erase_range. simpl. split; [|done].
  by rewrite fmap_app, fmap_take, fmap_drop, values_relinked.
Qed.

(** [X20]  On a graph with its edges inside the vector, [insert(v)]
    changes the neighbours of no value: every value has after it the
    pairs of neighbour and weight it had, and a value that is new has
    none. *)
Theorem insert_keeps_adjacency (g : graph) (v u : T) :
  edges_in_range g →
  get_adjacent_nodes_values_and_weights (insert g v).1.1 u
  = get_adjacent_nodes_values_and_weights g u.
Proof.
  intros Hr. unfold insert.
  destruct (findNode g v) as [[i n]|] eqn:Hfind; simpl; [done|].
  unfold get_adjacent_nodes_values_and_weights.
  destruct (findNode g u) as [[k m]|] eqn:Hfu.
  - unfold findNode in *. rewrite (list_find_app_l _ _ _ _ _ Hfu).
    pose proof Hfu as (Hk%list_elem_of_lookup_2 & _)%list_find_Some.
    unfold edges_in_range in Hr. rewrite Forall_forall in Hr.
    specialize (Hr m Hk).
    destruct (get_adjacent_nodes_values_and_weights_of_Some g _ Hr)
      as (old & -> & Hold).
    destruct (get_adjacent_nodes_values_and_weights_of_Some
                (g ++ [mk_node v ∅]) (m_adjacentNodeIndices m))
      as (new & -> & Hnew).
    { intros e He. rewrite length_app. specialize (Hr e He). simpl in *. lia. }
    f_equal. apply set_eq. intros p. rewrite Hold, Hnew.
    split; intros (e & m' & He & Hm' & ->); exists e, m';
      (split; [done|]); (split; [|done]).
    + rewrite lookup_app_l in Hm'; [done|]. by apply Hr.
    + rewrite lookup_app_l; [done|]. by apply Hr.
  - destruct (decide (u = v)) as [->|Hne].
    + rewrite (findNode_snoc g v Hfind). simpl.
      unfold get_adjacent_nodes_values_and_weights_of.
      by rewrite set_fold_empty.
    + assert (findNode (g ++ [mk_node v ∅]) u = None) as ->; [|done].
      apply findNode_None. rewrite node_values_snoc. simpl.
      apply findNode_None in Hfu. set_solver.
Qed.



(** *** Equality as a relation *)

(** [X11]  On graphs with unique values and their edges inside the vector,
    [operator==] is reflexive, gives the same answer with its operands
    exchanged, and is transitive; [operator!=] is then its negation. *)
Theorem graph_eq_equivalence :
  (∀ g : graph, unique_values g → edges_in_range g →
     graph_eq g g = Some true ∧ graph_ne g g = Some false) ∧
  (∀ g rhs : graph,
     unique_values g → edges_in_range g →
     unique_values rhs → edges_in_range rhs →
     graph_eq g rhs = graph_eq rhs g) ∧
  (∀ g1 g2 g3 : graph,
     unique_values g1 → edges_in_range g1 →
     unique_values g2 → edges_in_range g2 →
     unique_values g3 → edges_in_range g3 →
     graph_eq g1 g2 = Some true → graph_eq g2 g3 = Some true →
     graph_eq g1 g3 = Some true).
Proof.
  split; [|split].
  - intros g Hu Hr.
    destruct (graph_eq_spec g g Hu Hu Hr Hr) as (b & Hb & Hiff).
    assert (b = true) as -> by (by apply Hiff).
    unfold graph_ne. by rewrite Hb.
  - intros g rhs Hu Hr Hu' Hr'.
    destruct (graph_eq_spec g rhs Hu Hu' Hr Hr') as (b & -> & Hb).
    destruct (graph_eq_spec rhs g Hu' Hu Hr' Hr) as (b' & -> & Hb').
    f_equal. apply eq_true_iff_eq. rewrite Hb, Hb'. split.
    + intros [Hvalues Hadjacent]. split; [done|].
      intros v Hv. symmetry. apply Hadjacent. by rewrite Hvalues.
    + intros [Hvalues Hadjacent]. split; [done|].
      intros v Hv. symmetry. apply Hadjacent. by rewrite Hvalues.
  - intros g1 g2 g3 Hu1 Hr1 Hu2 Hr2 Hu3 Hr3 H12 H23.
    destruct (graph_eq_spec g1 g2 Hu1 Hu2 Hr1 Hr2) as (b12 & Hb12 & Hiff12).
    destruct (graph_eq_spec g2 g3 Hu2 Hu3 Hr2 Hr3) as (b23 & Hb23 & Hiff23).
    destruct (graph_eq_spec g1 g3 Hu1 Hu3 Hr1 Hr3) as (b13 & -> & Hiff13).
    rewrite Hb12 in H12. rewrite Hb23 in H23. simplify_eq.
    destruct (proj1 Hiff12 eq_refl) as [Hv12 Ha12].
    destruct (proj1 Hiff23 eq_refl) as [Hv23 Ha23].
    f_equal. apply Hiff13. split; [congruence|].
    intros v Hv. rewrite Ha12 by done. apply Ha23. by rewrite <-Hv12.
Qed.

End container_queries.

(** ** The traversals *)

Section traversal_facts.
Import Dijkstra Traversal.

Lemma elem_of_values_in_order (s : gset Z) (x : Z) :
  x ∈ values_in_order s ↔ x ∈ s.
Proof.
  unfold values_in_order. by rewrite merge_sort_Permutation, elem_of_elements.
Qed.

Lemma NoDup_length_le_size (l : list Z) (X : gset Z) :
  NoDup l → (∀ x, x ∈ l → x ∈ X) → length l ≤ base.size X.
Proof.
  intros Hl Hsub. rewrite <-(size_list_to_set (C := gset Z) l Hl).
  apply subseteq_size. intros x Hx%elem_of_list_to_set. by apply Hsub.
Qed.

Lemma size_node_values_le (g : weighted_directed_graph Z Z) :
  base.size (node_values g) ≤ length g.
Proof.
  unfold node_values. rewrite <-(length_fmap value g).
  induction (value <$> g) as [|x l IH].
  - by rewrite list_to_set_nil, size_empty.
  - rewrite list_to_set_cons, size_union_alt, size_singleton. simpl.
    assert (base.size (list_to_set l ∖ {[ x ]} : gset Z) ≤ base.size (list_to_set l : gset Z))
      by (apply subseteq_size; set_solver).
    lia.
Qed.

(** With its edges inside the vector a graph gives every value a set of
    neighbours, which are values of the graph. *)
Lemma get_adjacent_nodes_values_total (g : weighted_directed_graph Z Z)
    (v : Z) :
  edges_in_range g →
  ∃ adjacent, get_adjacent_nodes_values g v = Some adjacent ∧
              adjacent ⊆ node_values g.
Proof.
  intros Hr. destruct (findNode g v) as [[i n]|] eqn:Hfind.
  - destruct (get_adjacent_nodes_values_Some g v i n Hr Hfind)
      as (adjacent & Hadjacent & Hspec).
    exists adjacent. split; [done|]. intros u (e & m & _ & Hm & <-)%Hspec.
    unfold node_values. rewrite elem_of_list_to_set.
    apply list_elem_of_fmap_2. by eapply list_elem_of_lookup_2.
  - exists ∅. unfold get_adjacent_nodes_values. rewrite Hfind.
    split; [done|set_solver].
Qed.

Section walk.
Context (add : Z → list Z → list Z).
Hypothesis add_perm : ∀ x l, add x l ≡ₚ x :: l.
Context (g : weighted_directed_graph Z Z) (start_node : Z).
Hypothesis Hrange : edges_in_range g.

(** The loop over the neighbours of [current], from a state of the
    outer loop. *)
Lemma add_unvisited_fold (current : Z) (written : list Z)
    (neighbors frontier : list Z) (visited : gset Z) :
  (∀ y, y ∈ neighbors → value_edge g current y ∧ y ∈ node_values g) →
  rtc (value_edge g) start_node current →
  NoDup (written ++ frontier) →
  visited = list_to_set (written ++ frontier) →
  visited ⊆ {[ start_node ]} ∪ node_values g →
  (∀ x, x ∈ visited → rtc (value_edge g) start_node x) →
  ∃ frontier' visited',
    foldl (add_unvisited add) (frontier, visited) neighbors
    = (frontier', visited') ∧
    NoDup (written ++ frontier') ∧
    visited' = list_to_set (written ++ frontier') ∧
    visited' ⊆ {[ start_node ]} ∪ node_values g ∧
    (∀ x, x ∈ visited' → rtc (value_edge g) start_node x) ∧
    visited ⊆ visited' ∧
    (∀ y, y ∈ neighbors → y ∈ visited').
Proof.
  intros Hnb Hcurrent. revert frontier visited.
  induction neighbors as [|y neighbors IH];
    intros frontier visited Hnodup Hvisited Huniverse Hreach.
  { exists frontier, visited. split; [done|].
    repeat split; try done. intros y Hy. inv Hy. }
  change (foldl (add_unvisited add) (frontier, visited) (y :: neighbors))
    with (foldl (add_unvisited add)
                (add_unvisited add (frontier, visited) y) neighbors).
  destruct (Hnb y) as [Hedge Hnode]; [by left|].
  assert (∀ y', y' ∈ neighbors →
                value_edge g current y' ∧ y' ∈ node_values g) as Hnb'
    by (intros y' Hy'; apply Hnb; by right).
  destruct (decide (y ∈ visited)) as [Hy|Hy].
  - assert (add_unvisited add (frontier, visited) y = (frontier, visited))
      as -> by (unfold add_unvisited; by rewrite decide_True).
    destruct (IH Hnb' frontier visited) as
      (frontier' & visited' & Hfold & ? & ? & ? & ? & Hsub & Hall); [done..|].
    exists frontier', visited'. split; [done|].
    repeat split; try done.
    intros y' [->|Hy']%elem_of_cons; [by apply Hsub|by apply Hall].
  - assert (add_unvisited add (frontier, visited) y
            = (add y frontier, {[ y ]} ∪ visited))
      as -> by (unfold add_unvisited; by rewrite decide_False).
    assert (written ++ add y frontier ≡ₚ y :: written ++ frontier) as Hperm
      by (by rewrite add_perm, Permutation_middle).
    destruct (IH Hnb' (add y frontier) ({[ y ]} ∪ visited)) as
      (frontier' & visited' & Hfold & ? & ? & ? & ? & Hsub & Hall).
    + rewrite Hperm. apply NoDup_cons. split; [|done].
      intros Hin. apply Hy. rewrite Hvisited. by apply elem_of_list_to_set.
    + rewrite (list_to_set_perm_L _ _ Hperm). simpl. by rewrite Hvisited.
    + set_solver.
    + intros x [->%elem_of_singleton | Hx]%elem_of_union.
      * by eapply rtc_r.
      * by apply Hreach.
    + exists frontier', visited'. split; [done|].
      repeat split; try done; [set_solver|].
      intros y' [->|Hy']%elem_of_cons; [|by apply Hall].
      apply Hsub. set_solver.
Qed.

Lemma walk_returns (fuel : nat) (frontier : list Z) (visited : gset Z)
    (written : list Z) :
  walk_inv g start_node frontier visited written →
  base.size ({[ start_node ]} ∪ node_values g) - length written < fuel →
  ∃ out, walk add fuel g frontier visited written = Returned out ∧
         walk_inv g start_node [] (list_to_set out) out.
Proof.
  revert frontier visited written.
  induction fuel as [|fuel IH];
    intros frontier visited written Hinv Hfuel; [lia|].
  destruct Hinv as (Hnodup & Hvisited & Huniverse & Hhead & Hreach & Hclosed).
  destruct frontier as [|current frontier]; simpl.
  { exists written. split; [done|]. rewrite app_nil_r in *. subst visited.
    unfold walk_inv. rewrite app_nil_r. by repeat split. }
  destruct (get_adjacent_nodes_values_total g current Hrange)
    as (adjacent & Hadjacent & Hnodes).
  rewrite Hadjacent.
  assert (current ∈ visited) as Hcurrent
    by (rewrite Hvisited, elem_of_list_to_set; set_solver).
  destruct (add_unvisited_fold current (written ++ [current])
              (values_in_order adjacent) frontier visited)
    as (frontier' & visited' & -> & Hnodup' & Hvisited' & Huniverse'
        & Hreach' & Hsub & Hall).
  - intros y Hy%elem_of_values_in_order. split; [|by apply Hnodes].
    by exists adjacent.
  - by apply Hreach.
  - by rewrite <-app_assoc.
  - by rewrite <-app_assoc.
  - done.
  - done.
  - apply IH.
    + repeat split; try done.
      * rewrite <-Hhead. by destruct written.
      * intros x y [Hx | ->%list_elem_of_singleton]%elem_of_app Hedge.
        -- apply Hsub. by eapply Hclosed.
        -- apply Hall, elem_of_values_in_order.
           destruct Hedge as (adjacent' & Hadjacent' & Hy).
           rewrite Hadjacent in Hadjacent'. by simplify_eq.
    + rewrite length_app. simpl.
      assert (length (written ++ current :: frontier)
              ≤ base.size ({[ start_node ]} ∪ node_values g)) as Hle.
      { apply NoDup_length_le_size; [done|]. intros x Hx.
        apply Huniverse. rewrite Hvisited. by apply elem_of_list_to_set. }
      rewrite length_app in Hle. simpl in Hle. lia.
Qed.

(** The loop from its first state, with fuel for one turn a node and one
    turn more. *)
Lemma walk_from_start (fuel : nat) :
  length g + 2 ≤ fuel →
  ∃ out, walk add fuel g [start_node] {[ start_node ]} [] = Returned out ∧
         NoDup out ∧ head out = Some start_node ∧
         ∀ x, x ∈ out ↔ rtc (value_edge g) start_node x.
Proof.
  intros Hfuel.
  destruct (walk_returns fuel [start_node] {[ start_node ]} [])
    as (out & Hout & Hnodup & _ & _ & Hhead & Hreach & Hclosed).
  - repeat split; simpl.
    + apply NoDup_singleton.
    + set_solver.
    + set_solver.
    + intros x ->%elem_of_singleton. done.
    + intros x y Hx. inv Hx.
  - simpl. pose proof (size_node_values_le g).
    assert (base.size ({[ start_node ]} ∪ node_values g : gset Z)
            ≤ 1 + base.size (node_values g)).
    { rewrite size_union_alt, size_singleton.
      assert (base.size (node_values g ∖ {[ start_node ]})
              ≤ base.size (node_values g)) by (apply subseteq_size; set_solver).
      lia. }
    lia.
  - rewrite app_nil_r in *. exists out. split; [done|]. split; [done|].
    split; [done|]. intros x. split.
    + intros Hx. apply Hreach. by apply elem_of_list_to_set.
    + intros Hpath.
      assert (start_node ∈ out) as Hstart
        by (destruct out; simplify_eq/=; by left).
      assert (∀ a b, rtc (value_edge g) a b → a ∈ out → b ∈ out) as Hall;
        [|by eapply Hall].
      clear -Hclosed. induction 1 as [|a b c Hab _ IHpath]; [done|].
      intros Ha. apply IHpath.
      apply (elem_of_list_to_set (C := gset Z)). by eapply Hclosed.
Qed.

End walk.

Lemma dfs_loop_walk (fuel : nat) (g : weighted_directed_graph Z Z)
    (stack : list Z) (visited : gset Z) (written : list Z) :
  dfs_loop fuel g stack visited written = walk cons fuel g stack visited written.
Proof.
  revert stack visited written.
  induction fuel as [|fuel IH]; intros stack visited written; [done|].
  simpl. destruct stack as [|current stack]; [done|].
  destruct (get_adjacent_nodes_values g current) as [adjacent|]; [|done].
  change (foldl push_unvisited) with (foldl (add_unvisited cons)).
  destruct (foldl _ _ _) as [stack' visited']. apply IH.
Qed.

Lemma bfs_loop_walk (fuel : nat) (g : weighted_directed_graph Z Z)
    (queue : list Z) (visited : gset Z) (written : list Z) :
  bfs_loop fuel g queue visited written
  = walk (λ x l, l ++ [x]) fuel g queue visited written.
Proof.
  revert queue visited written.
  induction fuel as [|fuel IH]; intros queue visited written; [done|].
  simpl. destruct queue as [|current queue]; [done|].
  destruct (get_adjacent_nodes_values g current) as [adjacent|]; [|done].
  change (foldl enqueue_unvisited)
    with (foldl (add_unvisited (λ x l, l ++ [x]))).
  destruct (foldl _ _ _) as [queue' visited']. apply IH.
Qed.

(** [X12]  On a graph with its edges inside the vector, and with fuel for
    one turn of the loop a node and two more, [dfs] returns: it writes the
    start value first, no value twice, and exactly the values that a path
    of edges reaches from the start value. *)
Theorem dfs_writes_reachable (fuel : nat) (g : weighted_directed_graph Z Z)
    (start_node : Z) :
  edges_in_range g → length g + 2 ≤ fuel →
  ∃ written, dfs fuel g start_node = Returned written ∧
             NoDup written ∧ head written = Some start_node ∧
             ∀ x, x ∈ written ↔ rtc (value_edge g) start_node x.
Proof.
  intros Hr Hfuel. unfold dfs. rewrite dfs_loop_walk.
  by apply walk_from_start.
Qed.

(** [X13]  On a graph with its edges inside the vector, and with fuel for
    one turn of the loop a node and two more, [bfs] returns: it writes the
    start value first, no value twice, and exactly the values that a path
    of edges reaches from the start value. *)
Theorem bfs_writes_reachable (fuel : nat) (g : weighted_directed_graph Z Z)
    (start_node : Z) :
  edges_in_range g → length g + 2 ≤ fuel →
  ∃ written, bfs fuel g start_node = Returned written ∧
             NoDup written ∧ head written = Some start_node ∧
             ∀ x, x ∈ written ↔ rtc (value_edge g) start_node x.
Proof.
  intros Hr Hfuel. unfold bfs. rewrite bfs_loop_walk.
  apply walk_from_start; [|done..].
  intros x l. by rewrite Permutation_app_comm.
Qed.

End traversal_facts.

(** ** More on the shortest-path functions *)

Section dijkstra_more.
Import Dijkstra Traversal.
Local Open Scope Z_scope.

Lemma reconstruct_ends (fuel : nat) (start_node : Z) (previous : gmap Z Z)
    (current : Z) (path p : list Z) :
  reconstruct fuel start_node previous current path = Returned p →
  head p = Some start_node ∧ last p = head (path ++ [current]).
Proof.
  revert previous current path.
  induction fuel as [|fuel IH]; intros previous current path; [done|].
  simpl. case_decide as Hcurrent.
  - destruct (subscript previous current) as [next previous'].
    intros [Hhead Hlast]%IH. split; [done|].
    rewrite Hlast. by destruct path.
  - subst current. intros [= <-].
    rewrite reverse_snoc. split; [done|].
    by rewrite <-reverse_snoc, last_reverse.
Qed.

(** [X14]  A path that [dijkstra(graph, start, end)] returns is empty
    when the start or the end value is absent from the graph, and
    otherwise begins with the start value and ends with the end value. *)
Theorem dijkstra_path_ends (fuel : nat) (g : weighted_directed_graph Z Z)
    (start_node end_node : Z) (p : list Z) :
  dijkstra_path fuel g start_node end_node = Returned p →
  (start_node ∉ node_values g ∨ end_node ∉ node_values g → p = []) ∧
  (start_node ∈ node_values g → end_node ∈ node_values g →
   head p = Some start_node ∧ last p = Some end_node).
Proof.
  intros Hp. split.
  - intros Habsent.
    rewrite (dijkstra_path_absent fuel g start_node end_node Habsent) in Hp.
    by simplify_eq.
  - intros [? Hs]%findNode_is_Some [? He]%findNode_is_Some.
    unfold dijkstra_path in Hp. rewrite Hs, He in Hp.
    destruct (search_loop _ _ _ _ _ _ _) as [previous| |]; [|done..].
    by apply reconstruct_ends in Hp.
Qed.

(** *** The queue *)

Lemma pair_le_trans (p q r : Z * Z) : pair_le p q → pair_le q r → pair_le p r.
Proof. unfold pair_le. destruct p, q, r; simpl. lia. Qed.

Lemma pq_least_spec (p : Z * Z) (rest : list (Z * Z)) :
  let least := foldl (λ least q, if decide (pair_lt q least) then q
                                 else least) p rest in
  least ∈ p :: rest ∧ ∀ x, x ∈ p :: rest → pair_le least x.
Proof.
  revert p. induction rest as [|q rest IH]; intros p; simpl.
  { split; [by left|]. intros x ->%list_elem_of_singleton.
    unfold pair_le. lia. }
  destruct (IH (if decide (pair_lt q p) then q else p)) as [Hin Hle].
  split.
  - apply elem_of_cons in Hin as [Heq|Hin]; [|by do 2 right].
    rewrite Heq. case_decide; [right; by left|by left].
  - intros x Hx.
    assert (pair_le (if decide (pair_lt q p) then q else p) p ∧
            pair_le (if decide (pair_lt q p) then q else p) q) as [Hp Hq].
    { case_decide as Hlt; unfold pair_le, pair_lt in *;
        destruct p, q; simpl in *; lia. }
    apply elem_of_cons in Hx as [->|[->|Hx]%elem_of_cons].
    + eapply pair_le_trans; [|exact Hp]. apply Hle. by left.
    + eapply pair_le_trans; [|exact Hq]. apply Hle. by left.
    + apply Hle. by right.
Qed.

Lemma pq_top_spec (pq : list (Z * Z)) (least : Z * Z) :
  pq_top pq = Some least →
  least ∈ pq ∧ ∀ x, x ∈ pq → pair_le least x.
Proof.
  destruct pq as [|p rest]; [done|]. simpl. intros [= <-].
  apply pq_least_spec.
Qed.

Lemma length_remove_first (x : Z * Z) (pq : list (Z * Z)) :
  x ∈ pq → S (length (remove_first x pq)) = length pq.
Proof.
  induction pq as [|p pq IH]; intros Hx; [inv Hx|].
  simpl. case_decide as Hp; [done|]. simpl. f_equal. apply IH.
  apply elem_of_cons in Hx as [->|Hx]; [done|done].
Qed.

Lemma elem_of_remove_first (x y : Z * Z) (pq : list (Z * Z)) :
  y ∈ remove_first x pq → y ∈ pq.
Proof.
  induction pq as [|p pq IH]; [done|]. simpl. case_decide.
  - by right.
  - intros [->|Hy]%elem_of_cons; [by left|right; by apply IH].
Qed.

Lemma elem_of_remove_first_ne (x y : Z * Z) (pq : list (Z * Z)) :
  y ∈ pq → y ≠ x → y ∈ remove_first x pq.
Proof.
  induction pq as [|p pq IH]; [done|]. simpl.
  intros [->|Hy]%elem_of_cons Hne.
  - rewrite decide_False by done. by left.
  - case_decide; [done|]. right. by apply IH.
Qed.

(** *** The edges still to come *)

Lemma unvisited_edges_mono (g : weighted_directed_graph Z Z)
    (visited visited' : gset Z) :
  visited ⊆ visited' →
  (unvisited_edges g visited' ≤ unvisited_edges g visited)%nat.
Proof.
  intros Hsub. unfold unvisited_edges.
  induction g as [|n g IH]; csimpl; [done|].
  repeat case_decide; try lia. set_solver.
Qed.

Lemma unvisited_edges_visit (g : weighted_directed_graph Z Z)
    (visited : gset Z) (n : weighted_graph_node Z Z) :
  n ∈ g → value n ∉ visited →
  (unvisited_edges g ({[ value n ]} ∪ visited)
   + base.size (m_adjacentNodeIndices n) ≤ unvisited_edges g visited)%nat.
Proof.
  intros Hn Hv. unfold unvisited_edges.
  induction g as [|m g IH]; [inv Hn|]. csimpl.
  apply elem_of_cons in Hn as [<-|Hn].
  - rewrite decide_True by set_solver. rewrite decide_False by done.
    pose proof (unvisited_edges_mono g visited ({[ value n ]} ∪ visited))
      as Hmono.
    unfold unvisited_edges in Hmono.
    assert (visited ⊆ {[ value n ]} ∪ visited) as Hsub by set_solver.
    specialize (Hmono Hsub). lia.
  - specialize (IH Hn). repeat case_decide; try lia. set_solver.
Qed.

Lemma unvisited_edges_empty (g : weighted_directed_graph Z Z) :
  unvisited_edges g ∅ = edge_count g.
Proof.
  unfold unvisited_edges, edge_count. f_equal.
Qed.

Lemma size_weights_of_le (g : weighted_directed_graph Z Z)
    (indices : gset (nat * Z)) (pairs : gset (Z * Z)) :
  get_adjacent_nodes_values_and_weights_of g indices = Some pairs →
  (base.size pairs ≤ base.size indices)%nat.
Proof.
  unfold get_adjacent_nodes_values_and_weights_of. revert pairs.
  apply (set_fold_ind_L
    (λ (r : option (gset (Z * Z))) (X : gset (nat * Z)),
       ∀ pairs, r = Some pairs → (base.size pairs ≤ base.size X)%nat)).
  - intros pairs [= <-]. by rewrite size_empty.
  - intros e X r Hfresh IH pairs Hpairs.
    destruct r as [values|]; simplify_eq/=.
    destruct (g !! index e) as [n|]; simplify_eq/=.
    specialize (IH values eq_refl).
    rewrite (size_union {[ e ]} X) by set_solver.
    rewrite size_union_alt, !size_singleton.
    assert (base.size (values ∖ {[ (value n, weight e) ]}) ≤ base.size values)%nat
      by (apply subseteq_size; set_solver).
    lia.
Qed.

Lemma length_in_order (pairs : gset (Z * Z)) :
  length (in_order pairs) = base.size pairs.
Proof.
  unfold in_order. by rewrite merge_sort_Permutation.
Qed.

Lemma elem_of_in_order (pairs : gset (Z * Z)) (p : Z * Z) :
  p ∈ in_order pairs ↔ p ∈ pairs.
Proof.
  unfold in_order. by rewrite merge_sort_Permutation, elem_of_elements.
Qed.

(** The neighbours of a value that is visited now are paid for by the
    edges of its node. *)
Lemma neighbours_bound (g : weighted_directed_graph Z Z) (c : Z)
    (visited : gset Z) (pairs : gset (Z * Z)) :
  get_adjacent_nodes_values_and_weights g c = Some pairs → c ∉ visited →
  (length (in_order pairs) + unvisited_edges g ({[ c ]} ∪ visited)
   ≤ unvisited_edges g visited)%nat.
Proof.
  unfold get_adjacent_nodes_values_and_weights. intros Hpairs Hc.
  rewrite length_in_order.
  destruct (findNode g c) as [[i n]|] eqn:Hfind.
  - pose proof Hfind as (Hi%list_elem_of_lookup_2 & <- & _)%findNode_Some.
    pose proof (size_weights_of_le g _ pairs Hpairs).
    pose proof (unvisited_edges_visit g visited n Hi Hc). lia.
  - simplify_eq. rewrite size_empty.
    assert (visited ⊆ {[ c ]} ∪ visited) as Hsub by set_solver.
    pose proof (unvisited_edges_mono g visited ({[ c ]} ∪ visited) Hsub).
    simpl. lia.
Qed.

(** *** The loop of [dijkstra] *)

Section dijkstra_loop_facts.
Context (g : weighted_directed_graph Z Z) (start_node : Z).
Hypothesis Hrange : edges_in_range g.
Hypothesis Hweights : non_negative g.

Lemma get_adjacent_nodes_values_and_weights_total (v : Z) :
  ∃ pairs, get_adjacent_nodes_values_and_weights g v = Some pairs.
Proof.
  destruct (findNode g v) as [[i n]|] eqn:Hfind.
  - destruct (get_adjacent_nodes_values_and_weights_Some g v i n Hrange Hfind)
      as (pairs & Hpairs & _). eauto.
  - exists ∅. unfold get_adjacent_nodes_values_and_weights. by rewrite Hfind.
Qed.

Lemma weighted_edge_nonneg (a b w : Z) : weighted_edge g a b w → 0 ≤ w.
Proof.
  intros (pairs & Hpairs & Hin).
  destruct (findNode g a) as [[i n]|] eqn:Hfind.
  - destruct (get_adjacent_nodes_values_and_weights_Some g a i n Hrange Hfind)
      as (pairs' & Hpairs' & Hspec).
    rewrite Hpairs in Hpairs'. simplify_eq.
    apply Hspec in Hin as (e & m & He & _ & [= _ ->]).
    apply (Hweights n e); [|done].
    apply findNode_Some in Hfind as (Hi & _).
    by eapply list_elem_of_lookup_2.
  - unfold get_adjacent_nodes_values_and_weights in Hpairs.
    rewrite Hfind in Hpairs. simplify_eq. set_solver.
Qed.

Lemma path_weight_nonneg (k d : Z) : path_weight g start_node k d → 0 ≤ d.
Proof.
  induction 1 as [|b c d w _ IH Hedge]; [done|].
  apply weighted_edge_nonneg in Hedge. lia.
Qed.

(** One neighbour whose distance improves. *)
Lemma relax_update (c d : Z) (visited : gset Z) (done : list (Z * Z))
    (pq : list (Z * Z)) (distances : gmap Z Z) (y w : Z) :
  dijkstra_inv g start_node (λ x y' w', x = c ∧ (y', w') ∉ done)
               pq distances visited →
  c ∈ visited → distances !! c = Some d → weighted_edge g c y w →
  (∀ known, distances !! y = Some known → d + w < known) →
  dijkstra_inv g start_node (λ x y' w', x = c ∧ (y', w') ∉ (y, w) :: done)
               ((d + w, y) :: pq) (<[y := d + w]> distances) visited ∧
  <[y := d + w]> distances !! c = Some d.
Proof.
  intros (Ha & Hb & Hc & Hd & He & Hf) Hcv Hcd Hedge Hbetter.
  assert (path_weight g start_node y (d + w)) as Hpath
    by (eapply path_step; [by apply Ha|done]).
  assert (y ∉ visited) as Hy.
  { intros (known & Hknown & Hleast)%Hc.
    specialize (Hbetter known Hknown). specialize (Hleast _ Hpath). lia. }
  assert (y ≠ c) as Hyc by (by intros ->).
  assert (y ≠ start_node) as Hys.
  { intros ->. specialize (Hbetter 0 Hf).
    apply path_weight_nonneg in Hpath. lia. }
  split; [|by rewrite lookup_insert_ne].
  repeat split.
  - intros k dk. rewrite lookup_insert. case_decide; [|by apply Ha].
    intros [= <-]. by subst.
  - intros d' k [[= -> ->]|Hin]%elem_of_cons.
    + exists (d + w). by rewrite lookup_insert_eq.
    + destruct (Hb d' k Hin) as (dk & Hdk & Hle).
      destruct (decide (k = y)) as [->|Hne].
      * exists (d + w). rewrite lookup_insert_eq. split; [done|].
        specialize (Hbetter dk Hdk). lia.
      * exists dk. by rewrite lookup_insert_ne.
  - intros k Hk. destruct (Hc k Hk) as (dk & Hdk & Hleast).
    exists dk. split; [|done]. rewrite lookup_insert_ne; [done|].
    by intros ->.
  - intros k dk. rewrite lookup_insert. case_decide as Hk.
    + intros [= <-] _. subst. by left.
    + intros Hdk Hkv. right. by apply Hd.
  - intros x y' w' dx Hx Hdx Hedge' Hexempt.
    assert (x ≠ y) as Hxy by (by intros ->).
    rewrite lookup_insert_ne in Hdx by done.
    destruct (decide (x = c ∧ (y', w') = (y, w))) as [[-> [= -> ->]]|Hother].
    + exists (d + w). rewrite lookup_insert_eq. split; [done|].
      rewrite Hcd in Hdx. simplify_eq. lia.
    + destruct (He x y' w' dx Hx Hdx Hedge') as (dy & Hdy & Hle).
      { intros [-> Hnot]. apply Hexempt. split; [done|].
        intros [Heq|Hin]%elem_of_cons; [|done]. apply Hother. by split. }
      destruct (decide (y' = y)) as [->|Hne].
      * exists (d + w). rewrite lookup_insert_eq. split; [done|].
        specialize (Hbetter dy Hdy). lia.
      * exists dy. by rewrite lookup_insert_ne.
  - by rewrite lookup_insert_ne.
Qed.

(** One neighbour whose distance stays. *)
Lemma relax_keep (c d : Z) (visited : gset Z) (done : list (Z * Z))
    (pq : list (Z * Z)) (distances : gmap Z Z) (y w known : Z) :
  dijkstra_inv g start_node (λ x y' w', x = c ∧ (y', w') ∉ done)
               pq distances visited →
  distances !! c = Some d → distances !! y = Some known → known ≤ d + w →
  dijkstra_inv g start_node (λ x y' w', x = c ∧ (y', w') ∉ (y, w) :: done)
               pq distances visited.
Proof.
  intros (Ha & Hb & Hc & Hd & He & Hf) Hcd Hknown Hle.
  repeat split; try done.
  intros x y' w' dx Hx Hdx Hedge' Hexempt.
  destruct (decide (x = c ∧ (y', w') = (y, w))) as [[-> [= -> ->]]|Hother].
  - exists known. split; [done|]. rewrite Hcd in Hdx. simplify_eq. lia.
  - apply (He x y' w' dx Hx Hdx Hedge').
    intros [-> Hnot]. apply Hexempt. split; [done|].
    intros [Heq|Hin]%elem_of_cons; [|done]. apply Hother. by split.
Qed.

(** The loop over the neighbours. *)
Lemma relax_fold (c d : Z) (visited : gset Z) (neighbors : list (Z * Z)) :
  c ∈ visited →
  (∀ p, p ∈ neighbors → weighted_edge g c p.1 p.2) →
  ∀ (done pq : list (Z * Z)) (distances : gmap Z Z),
    dijkstra_inv g start_node (λ x y' w', x = c ∧ (y', w') ∉ done)
                 pq distances visited →
    distances !! c = Some d →
    ∃ (distances' : gmap Z Z) (pq' done' : list (Z * Z)),
      foldl (relax d) (distances, pq) neighbors = (distances', pq') ∧
      dijkstra_inv g start_node (λ x y' w', x = c ∧ (y', w') ∉ done')
                   pq' distances' visited ∧
      (∀ p, p ∈ neighbors ∨ p ∈ done → p ∈ done') ∧
      (length pq' ≤ length pq + length neighbors)%nat.
Proof.
  intros Hcv. induction neighbors as [|[y w] neighbors IH];
    intros Hedges done pq distances Hinv Hcd.
  { exists distances, pq, done. split; [done|]. split; [done|].
    split; [|simpl; lia]. intros p [Hp|Hp]; [inv Hp|done]. }
  assert (weighted_edge g c y w) as Hedge by (apply (Hedges (y, w)); by left).
  assert (∀ p, p ∈ neighbors → weighted_edge g c p.1 p.2) as Hedges'
    by (intros p Hp; apply Hedges; by right).
  change (foldl (relax d) (distances, pq) ((y, w) :: neighbors))
    with (foldl (relax d) (relax d (distances, pq) (y, w)) neighbors).
  assert (∃ distances1 pq1,
            relax d (distances, pq) (y, w) = (distances1, pq1) ∧
            dijkstra_inv g start_node
              (λ x y' w', x = c ∧ (y', w') ∉ (y, w) :: done)
              pq1 distances1 visited ∧
            distances1 !! c = Some d ∧
            (length pq1 ≤ S (length pq))%nat)
    as (distances1 & pq1 & -> & Hinv1 & Hcd1 & Hlen1).
  { unfold relax. simpl. destruct (distances !! y) as [known|] eqn:Hknown.
    - case_decide as Hlt.
      + destruct (relax_update c d visited done pq distances y w)
          as [Hinv1 Hcd1]; [done..| |].
        { intros known' Hknown'. by simplify_eq. }
        eexists _, _. split; [done|]. split; [done|]. split; [done|].
        simpl. lia.
      + eexists _, _. split; [done|]. split; [|split; [done|lia]].
        apply (relax_keep c d visited done pq distances y w known);
          [done..|lia].
    - destruct (relax_update c d visited done pq distances y w)
        as [Hinv1 Hcd1]; [done..| |].
      { intros known' Hknown'. by simplify_eq. }
      eexists _, _. split; [done|]. split; [done|]. split; [done|].
      simpl. lia. }
  destruct (IH Hedges' ((y, w) :: done) pq1 distances1 Hinv1 Hcd1)
    as (distances' & pq' & done' & Hfold & Hinv' & Hdone & Hlen).
  exists distances', pq', done'. split; [done|]. split; [done|]. split.
  - intros p [[->|Hp]%elem_of_cons|Hp]; apply Hdone.
    + right. by left.
    + by left.
    + right. by right.
  - simpl. lia.
Qed.

(** A neighbour whose distance improves is not visited and is not the
    start value. *)
Lemma improving_neighbour (c d : Z) (visited : gset Z) (done : list (Z * Z))
    (pq : list (Z * Z)) (distances : gmap Z Z) (y w : Z) :
  dijkstra_inv g start_node (λ x y' w', x = c ∧ (y', w') ∉ done)
               pq distances visited →
  distances !! c = Some d → weighted_edge g c y w →
  (∀ known, distances !! y = Some known → d + w < known) →
  (y ∉ visited) ∧ y ≠ start_node.
Proof.
  intros (Ha & Hb & Hc & Hd & He & Hf) Hcd Hedge Hbetter.
  assert (path_weight g start_node y (d + w)) as Hpath
    by (eapply path_step; [by apply Ha|done]).
  split.
  - intros (known & Hknown & Hleast)%Hc.
    specialize (Hbetter known Hknown). specialize (Hleast _ Hpath). lia.
  - intros ->. specialize (Hbetter 0 Hf).
    apply path_weight_nonneg in Hpath. lia.
Qed.

(** The map [previous] when the distance of a neighbour improves. *)
Lemma previous_update (c d : Z) (visited : gset Z) (rank : gmap Z nat)
    (distances previous : gmap Z Z) (y w : Z) :
  previous_inv g start_node distances previous visited rank →
  c ∈ visited → distances !! c = Some d → weighted_edge g c y w →
  y ∉ visited → y ≠ start_node →
  previous_inv g start_node (<[y := d + w]> distances)
               (<[y := c]> previous) visited rank.
Proof.
  intros (Hdom & Hbound & Hp1 & Hp2 & Hp3 & Hp4) Hcv Hcd Hedge Hy Hys.
  assert (y ≠ c) as Hyc by (by intros ->).
  split; [done|]. split; [done|]. split; [|split; [|split]].
  - intros k x [[<- <-]|[Hne Hk]]%lookup_insert_Some.
    + split; [done|]. exists w, d, (d + w).
      by rewrite lookup_insert_ne, lookup_insert_eq.
    + destruct (Hp1 k x Hk) as (Hx & w' & dx & dk & Hdx & Hdk & Hedge' & ->).
      split; [done|]. exists w', dx, (dx + w').
      rewrite !lookup_insert_ne; [done..|by intros ->].
  - intros k dk Hdk Hk. destruct (decide (k = y)) as [->|Hne].
    + rewrite lookup_insert_eq. eauto.
    + rewrite lookup_insert_ne in Hdk |- * by done. by eapply Hp2.
  - intros k x rk [[<- <-]|[Hne Hk]]%lookup_insert_Some Hrk.
    + destruct Hy. rewrite <-Hdom. apply elem_of_dom. eauto.
    + by eapply Hp3.
  - by rewrite lookup_insert_ne.
Qed.

(** The loop over the neighbours in [dijkstra(graph, start, end)]: its
    map of distances and its queue are those of the loop in
    [dijkstra(graph, start)]. *)
Lemma relax_previous_fold (c d : Z) (visited : gset Z) (rank : gmap Z nat)
    (neighbors : list (Z * Z)) :
  c ∈ visited →
  (∀ p, p ∈ neighbors → weighted_edge g c p.1 p.2) →
  ∀ (done pq : list (Z * Z)) (distances previous : gmap Z Z),
    dijkstra_inv g start_node (λ x y' w', x = c ∧ (y', w') ∉ done)
                 pq distances visited →
    previous_inv g start_node distances previous visited rank →
    distances !! c = Some d →
    ∃ (distances' previous' : gmap Z Z) (pq' done' : list (Z * Z)),
      foldl (relax_previous d c) (distances, previous, pq) neighbors
      = (distances', previous', pq') ∧
      dijkstra_inv g start_node (λ x y' w', x = c ∧ (y', w') ∉ done')
                   pq' distances' visited ∧
      previous_inv g start_node distances' previous' visited rank ∧
      (∀ p, p ∈ neighbors ∨ p ∈ done → p ∈ done') ∧
      (length pq' ≤ length pq + length neighbors)%nat.
Proof.
  intros Hcv. induction neighbors as [|[y w] neighbors IH];
    intros Hedges done pq distances previous Hinv Hprev Hcd.
  { exists distances, previous, pq, done. split; [done|]. split; [done|].
    split; [done|]. split; [|simpl; lia]. intros p [Hp|Hp]; [inv Hp|done]. }
  assert (weighted_edge g c y w) as Hedge by (apply (Hedges (y, w)); by left).
  assert (∀ p, p ∈ neighbors → weighted_edge g c p.1 p.2) as Hedges'
    by (intros p Hp; apply Hedges; by right).
  change (foldl (relax_previous d c) (distances, previous, pq)
                ((y, w) :: neighbors))
    with (foldl (relax_previous d c)
                (relax_previous d c (distances, previous, pq) (y, w))
                neighbors).
  assert (∃ distances1 previous1 pq1,
            relax_previous d c (distances, previous, pq) (y, w)
            = (distances1, previous1, pq1) ∧
            dijkstra_inv g start_node
              (λ x y' w', x = c ∧ (y', w') ∉ (y, w) :: done)
              pq1 distances1 visited ∧
            previous_inv g start_node distances1 previous1 visited rank ∧
            distances1 !! c = Some d ∧
            (length pq1 ≤ S (length pq))%nat)
    as (distances1 & previous1 & pq1 & -> & Hinv1 & Hprev1 & Hcd1 & Hlen1).
  { unfold relax_previous. simpl.
    destruct (distances !! y) as [known|] eqn:Hknown.
    - case_decide as Hlt.
      + assert (∀ known', distances !! y = Some known' → d + w < known')
          as Hbetter by (intros known' Hknown'; by simplify_eq).
        destruct (relax_update c d visited done pq distances y w)
          as [Hinv1 Hcd1]; [done..|].
        destruct (improving_neighbour c d visited done pq distances y w)
          as [Hy Hys]; [done..|].
        eexists _, _, _. split; [done|]. split; [done|].
        split; [by apply previous_update|]. split; [done|]. simpl. lia.
      + eexists _, _, _. split; [done|].
        split; [|split; [done|split; [done|lia]]].
        apply (relax_keep c d visited done pq distances y w known);
          [done..|lia].
    - assert (∀ known', distances !! y = Some known' → d + w < known')
        as Hbetter by (intros known' Hknown'; by simplify_eq).
      destruct (relax_update c d visited done pq distances y w)
        as [Hinv1 Hcd1]; [done..|].
      destruct (improving_neighbour c d visited done pq distances y w)
        as [Hy Hys]; [done..|].
      eexists _, _, _. split; [done|]. split; [done|].
      split; [by apply previous_update|]. split; [done|]. simpl. lia. }
  destruct (IH Hedges' ((y, w) :: done) pq1 distances1 previous1
              Hinv1 Hprev1 Hcd1)
    as (distances' & previous' & pq' & done' & Hfold & Hinv' & Hprev'
        & Hdone & Hlen).
  exists distances', previous', pq', done'.
  split; [done|]. split; [done|]. split; [done|]. split.
  - intros p [[->|Hp]%elem_of_cons|Hp]; apply Hdone.
    + right. by left.
    + by left.
    + right. by right.
  - simpl. lia.
Qed.

(** What is taken from the queue is no farther than any value that is
    not visited yet. *)
Lemma exit_bound (d c : Z) (pq : list (Z * Z)) (distances : gmap Z Z)
    (visited : gset Z) :
  dijkstra_inv g start_node (λ _ _ _, False) pq distances visited →
  (∀ x, x ∈ pq → pair_le (d, c) x) →
  ∀ z dz, path_weight g start_node z dz → z ∉ visited → d ≤ dz.
Proof.
  intros (Ha & Hb & Hc & Hd & He & Hf) Hleast.
  assert (∀ k dk, (dk, k) ∈ pq → d ≤ dk) as Hmin.
  { intros k dk Hin. specialize (Hleast _ Hin).
    unfold pair_le in Hleast. simpl in Hleast. lia. }
  induction 1 as [|b z db w Hpath IH Hedge]; intros Hz.
  - apply (Hmin start_node). by apply Hd.
  - pose proof (weighted_edge_nonneg _ _ _ Hedge).
    destruct (decide (b ∈ visited)) as [Hb'|Hb'].
    + destruct (Hc b Hb') as (db0 & Hdb0 & Hshort).
      specialize (Hshort db Hpath).
      destruct (He b z w db0 Hb' Hdb0 Hedge) as (dy & Hdy & Hle); [tauto|].
      pose proof (Hmin z dy (Hd z dy Hdy Hz)). lia.
    + specialize (IH Hb'). lia.
Qed.

Lemma dijkstra_loop_correct (fuel : nat) (pq : list (Z * Z))
    (distances : gmap Z Z) (visited : gset Z) :
  dijkstra_inv g start_node (λ _ _ _, False) pq distances visited →
  (length pq + unvisited_edges g visited < fuel)%nat →
  ∃ distances' visited',
    dijkstra_loop fuel g pq distances visited = Returned distances' ∧
    dijkstra_inv g start_node (λ _ _ _, False) [] distances' visited'.
Proof.
  revert pq distances visited.
  induction fuel as [|fuel IH]; intros pq distances visited Hinv Hfuel; [lia|].
  simpl. destruct (pq_top pq) as [[d c]|] eqn:Htop.
  2: { destruct pq; [|done]. eauto. }
  destruct (pq_top_spec pq (d, c) Htop) as [Hin Hleast].
  assert (pq_pop pq = remove_first (d, c) pq) as ->
    by (unfold pq_pop; by rewrite Htop).
  pose proof (length_remove_first (d, c) pq Hin) as Hlen.
  pose proof Hinv as (Ha & Hb & Hc & Hd & He & Hf).
  case_decide as Hcv.
  { apply IH; [|lia]. repeat split; try done.
    - intros d' k Hk%elem_of_remove_first. by apply Hb.
    - intros k dk Hdk Hk. apply elem_of_remove_first_ne; [by apply Hd|].
      intros [= -> ->]. done. }
  destruct (Hb d c Hin) as (d' & Hcd & Hle).
  assert (d' = d) as ->.
  { pose proof (Hleast _ (Hd c d' Hcd Hcv)) as Hmin.
    unfold pair_le in Hmin. simpl in Hmin. lia. }
  destruct (get_adjacent_nodes_values_and_weights_total c) as [pairs Hpairs].
  rewrite Hpairs.
  destruct (relax_fold c d ({[ c ]} ∪ visited) (in_order pairs))
    with (done := @nil (Z * Z)) (pq := remove_first (d, c) pq)
         (distances := distances)
    as (distances' & pq' & done' & -> & Hinv' & Hdone & Hlen').
  - set_solver.
  - intros [y w] Hp%elem_of_in_order. by exists pairs.
  - repeat split; try done.
    + intros d' k Hk%elem_of_remove_first. by apply Hb.
    + intros k [->%elem_of_singleton|Hk]%elem_of_union; [|by apply Hc].
      exists d. split; [done|]. intros dz Hpath.
      by apply (exit_bound d c pq distances visited Hinv Hleast c dz).
    + intros k dk Hdk Hk. apply elem_of_remove_first_ne.
      * apply Hd; [done|set_solver].
      * intros [= -> ->]. set_solver.
    + intros x y w dx Hx Hdx Hedge Hexempt.
      apply (He x y w dx); [|done..|tauto].
      apply elem_of_union in Hx as [->%elem_of_singleton|Hx]; [|done].
      destruct Hexempt. split; [done|]. apply not_elem_of_nil.
  - done.
  - apply IH.
    + destruct Hinv' as (Ha' & Hb' & Hc' & Hd' & He' & Hf').
      repeat split; try done.
      intros x y w dx Hx Hdx Hedge _.
      apply (He' x y w dx Hx Hdx Hedge). intros [-> Hnot]. apply Hnot.
      apply Hdone. left. apply elem_of_in_order.
      destruct Hedge as (pairs' & Hpairs' & Hyw).
      rewrite Hpairs in Hpairs'. by simplify_eq.
    + pose proof (neighbours_bound g c visited pairs Hpairs Hcv). lia.
Qed.

(** *** The loop of [dijkstra(graph, start, end)] and the walk back *)

Lemma visit_inv (d c : Z) (pq : list (Z * Z)) (distances : gmap Z Z)
    (visited : gset Z) :
  dijkstra_inv g start_node (λ _ _ _, False) pq distances visited →
  (d, c) ∈ pq → (∀ x, x ∈ pq → pair_le (d, c) x) → c ∉ visited →
  distances !! c = Some d ∧
  dijkstra_inv g start_node (λ x y' w', x = c ∧ (y', w') ∉ @nil (Z * Z))
               (remove_first (d, c) pq) distances ({[ c ]} ∪ visited).
Proof.
  intros Hinv Hin Hleast Hcv.
  pose proof Hinv as (Ha & Hb & Hc & Hd & He & Hf).
  destruct (Hb d c Hin) as (d' & Hcd & Hle).
  assert (d' = d) as ->.
  { pose proof (Hleast _ (Hd c d' Hcd Hcv)) as Hmin.
    unfold pair_le in Hmin. simpl in Hmin. lia. }
  split; [done|]. repeat split; try done.
  - intros d' k Hk%elem_of_remove_first. by apply Hb.
  - intros k [->%elem_of_singleton|Hk]%elem_of_union; [|by apply Hc].
    exists d. split; [done|]. intros dz Hpath.
    by apply (exit_bound d c pq distances visited Hinv Hleast c dz).
  - intros k dk Hdk Hk. apply elem_of_remove_first_ne.
    + apply Hd; [done|set_solver].
    + intros [= -> ->]. set_solver.
  - intros x y w dx Hx Hdx Hedge Hexempt.
    apply (He x y w dx); [|done..|tauto].
    apply elem_of_union in Hx as [->%elem_of_singleton|Hx]; [|done].
    destruct Hexempt. split; [done|]. apply not_elem_of_nil.
Qed.

Lemma neighbours_done (c : Z) (pairs : gset (Z * Z)) (done pq : list (Z * Z))
    (distances : gmap Z Z) (visited : gset Z) :
  get_adjacent_nodes_values_and_weights g c = Some pairs →
  dijkstra_inv g start_node (λ x y' w', x = c ∧ (y', w') ∉ done)
               pq distances visited →
  (∀ p, p ∈ in_order pairs → p ∈ done) →
  dijkstra_inv g start_node (λ _ _ _, False) pq distances visited.
Proof.
  intros Hpairs (Ha & Hb & Hc & Hd & He & Hf) Hdone.
  repeat split; try done.
  intros x y w dx Hx Hdx Hedge _.
  apply (He x y w dx Hx Hdx Hedge). intros [-> Hnot]. apply Hnot.
  apply Hdone, elem_of_in_order.
  destruct Hedge as (pairs' & Hpairs' & Hyw).
  rewrite Hpairs in Hpairs'. by simplify_eq.
Qed.

Lemma closed_when_empty (distances : gmap Z Z) (visited : gset Z) :
  dijkstra_inv g start_node (λ _ _ _, False) [] distances visited →
  ∀ z dz, path_weight g start_node z dz → z ∈ visited.
Proof.
  intros (Ha & Hb & Hc & Hd & He & Hf).
  assert (∀ k d, distances !! k = Some d → k ∈ visited) as Hvisited.
  { intros k d Hk. destruct (decide (k ∈ visited)) as [|Hnot]; [done|].
    specialize (Hd k d Hk Hnot). inv Hd. }
  induction 1 as [|b z db w _ IH Hedge]; [by eapply Hvisited|].
  destruct (Hc b IH) as (db0 & Hdb0 & _).
  destruct (He b z w db0 IH Hdb0 Hedge) as (dz & Hdz & _); [tauto|].
  by eapply Hvisited.
Qed.

Lemma previous_visit (c : Z) (distances previous : gmap Z Z)
    (visited : gset Z) (rank : gmap Z nat) :
  previous_inv g start_node distances previous visited rank →
  c ∉ visited →
  previous_inv g start_node distances previous ({[ c ]} ∪ visited)
               (<[c := base.size visited]> rank).
Proof.
  intros (Hdom & Hbound & Hp1 & Hp2 & Hp3 & Hp4) Hcv.
  assert (base.size ({[ c ]} ∪ visited) = S (base.size visited)) as Hsize
    by (rewrite size_union, size_singleton by set_solver; done).
  split; [by rewrite dom_insert_L, Hdom|].
  split; [|split; [|split; [done|split; [|done]]]].
  - intros x rx [[<- <-]|[_ Hx]]%lookup_insert_Some; [lia|].
    apply Hbound in Hx. lia.
  - intros k x Hk. destruct (Hp1 k x Hk) as [Hx Hrest].
    split; [set_solver|done].
  - intros k x rk Hk Hrk. destruct (Hp1 k x Hk) as [Hx _].
    assert (x ≠ c) as Hxc by (by intros ->).
    rewrite lookup_insert_ne by done.
    apply lookup_insert_Some in Hrk as [[<- <-]|[_ Hrk]]; [|by eapply Hp3].
    assert (is_Some (rank !! x)) as [rx Hrx]
      by (apply elem_of_dom; by rewrite Hdom).
    exists rx. split; [done|]. by eapply Hbound.
Qed.

Lemma search_loop_correct (end_node : Z) (fuel : nat) (pq : list (Z * Z))
    (distances previous : gmap Z Z) (visited : gset Z) (rank : gmap Z nat) :
  dijkstra_inv g start_node (λ _ _ _, False) pq distances visited →
  previous_inv g start_node distances previous visited rank →
  (length pq + unvisited_edges g visited < fuel)%nat →
  ∃ (previous' distances' : gmap Z Z) (visited' : gset Z)
    (rank' : gmap Z nat),
    search_loop fuel g end_node pq distances previous visited
    = Returned previous' ∧
    previous_inv g start_node distances' previous' visited' rank' ∧
    (∀ k d, distances' !! k = Some d → path_weight g start_node k d) ∧
    (∀ k, k ∈ visited' →
          ∃ d, distances' !! k = Some d ∧
               ∀ d', path_weight g start_node k d' → d ≤ d') ∧
    distances' !! start_node = Some 0 ∧
    (end_node ∈ visited' ∨
     ∀ z dz, path_weight g start_node z dz → z ∈ visited').
Proof.
  revert pq distances previous visited rank.
  induction fuel as [|fuel IH];
    intros pq distances previous visited rank Hinv Hprev Hfuel; [lia|].
  simpl. destruct (pq_top pq) as [[d c]|] eqn:Htop.
  2: { destruct pq; [|done].
       pose proof (closed_when_empty distances visited Hinv).
       destruct Hinv as (Ha & Hb & Hc & Hd & He & Hf).
       exists previous, distances, visited, rank. eauto 10. }
  destruct (pq_top_spec pq (d, c) Htop) as [Hin Hleast].
  assert (pq_pop pq = remove_first (d, c) pq) as ->
    by (unfold pq_pop; by rewrite Htop).
  pose proof (length_remove_first (d, c) pq Hin) as Hlen.
  case_decide as Hcv.
  { apply (IH _ _ _ _ rank); [|done|lia].
    destruct Hinv as (Ha & Hb & Hc & Hd & He & Hf).
    repeat split; try done.
    - intros d' k Hk%elem_of_remove_first. by apply Hb.
    - intros k dk Hdk Hk. apply elem_of_remove_first_ne; [by apply Hd|].
      intros [= -> ->]. done. }
  destruct (visit_inv d c pq distances visited Hinv Hin Hleast Hcv)
    as [Hcd Hinv1].
  pose proof (previous_visit c distances previous visited rank Hprev Hcv)
    as Hprev1.
  case_decide as Hend.
  { subst c. destruct Hinv1 as (Ha & Hb & Hc & Hd & He & Hf).
    exists previous, distances, ({[ end_node ]} ∪ visited),
      (<[end_node := base.size visited]> rank).
    split; [done|]. split; [done|]. split; [done|]. split; [done|].
    split; [done|]. left. set_solver. }
  destruct (get_adjacent_nodes_values_and_weights_total c) as [pairs Hpairs].
  rewrite Hpairs.
  destruct (relax_previous_fold c d ({[ c ]} ∪ visited)
              (<[c := base.size visited]> rank) (in_order pairs))
    with (done := @nil (Z * Z)) (pq := remove_first (d, c) pq)
         (distances := distances) (previous := previous)
    as (distances' & previous' & pq' & done' & -> & Hinv' & Hprev' & Hdone
        & Hlen'); [set_solver| |done..|].
  { intros [y w] Hp%elem_of_in_order. by exists pairs. }
  apply (IH _ _ _ _ (<[c := base.size visited]> rank)); [|done|].
  - apply (neighbours_done c pairs done'); [done..|].
    intros p Hp. apply Hdone. by left.
  - pose proof (neighbours_bound g c visited pairs Hpairs Hcv). lia.
Qed.

Lemma weighted_edge_target (a b w : Z) :
  weighted_edge g a b w → b ∈ node_values g.
Proof.
  intros (pairs & Hpairs & Hin).
  destruct (findNode g a) as [[i n]|] eqn:Hfind.
  - destruct (get_adjacent_nodes_values_and_weights_Some g a i n Hrange Hfind)
      as (pairs' & Hpairs' & Hspec).
    rewrite Hpairs in Hpairs'. simplify_eq.
    apply Hspec in Hin as (e & m & He & Hm & [= -> _]).
    unfold node_values. rewrite elem_of_list_to_set.
    apply list_elem_of_fmap_2. by eapply list_elem_of_lookup_2.
  - unfold get_adjacent_nodes_values_and_weights in Hpairs.
    rewrite Hfind in Hpairs. simplify_eq. set_solver.
Qed.

Lemma path_weight_target (k d : Z) :
  path_weight g start_node k d → k = start_node ∨ k ∈ node_values g.
Proof.
  destruct 1 as [|b c d w _ Hedge]; [by left|].
  right. by eapply weighted_edge_target.
Qed.

(** The walk back from a visited value: it follows [previous] to the start
    value and returns the values of a path of edges. *)
Lemma reconstruct_route (distances previous : gmap Z Z) (visited : gset Z)
    (rank : gmap Z nat) :
  previous_inv g start_node distances previous visited rank →
  distances !! start_node = Some 0 →
  ∀ (fuel : nat) (current : Z) (rk : nat) (d : Z) (path : list Z),
    rank !! current = Some rk → (rk < fuel)%nat →
    distances !! current = Some d →
    ∃ l, reconstruct fuel start_node previous current path
         = Returned (l ++ reverse path) ∧
         route g start_node l current d.
Proof.
  intros (Hdom & Hbound & Hp1 & Hp2 & Hp3 & Hp4) Hstart.
  induction fuel as [|fuel IH]; intros current rk d path Hrk Hfuel Hd; [lia|].
  simpl. case_decide as Hcurrent.
  - destruct (Hp2 current d Hd Hcurrent) as [x Hx].
    unfold subscript. rewrite Hx.
    destruct (Hp1 current x Hx) as (Hxv & w & dx & dk & Hdx & Hdk & Hedge & ->).
    destruct (Hp3 current x rk Hx Hrk) as (rx & Hrx & Hlt).
    destruct (IH x rx dx (path ++ [current]) Hrx) as (l & -> & Hroute);
      [lia|done|].
    exists (l ++ [current]). rewrite reverse_snoc, <-app_assoc. simpl.
    split; [done|]. rewrite Hd in Hdk. simplify_eq. by eapply route_step.
  - assert (current = start_node) as ->
      by (destruct (decide (current = start_node)); [done|by destruct Hcurrent]).
    exists [start_node]. rewrite reverse_snoc. split; [done|].
    rewrite Hstart in Hd. simplify_eq. constructor.
Qed.

End dijkstra_loop_facts.


Lemma dijkstra_inv_initial (g : weighted_directed_graph Z Z)
    (start_node : Z) :
  dijkstra_inv g start_node (λ _ _ _, False) [(0, start_node)]
               {[ start_node := 0 ]} ∅.
Proof.
  repeat split.
  - intros k d [<- <-]%lookup_singleton_Some. constructor.
  - intros d k [= -> ->]%list_elem_of_singleton.
    exists 0. by rewrite lookup_singleton_eq.
  - set_solver.
  - intros k d [<- <-]%lookup_singleton_Some _. by left.
  - set_solver.
  - by rewrite lookup_singleton_eq.
Qed.

Lemma previous_inv_initial (g : weighted_directed_graph Z Z)
    (start_node : Z) :
  previous_inv g start_node {[ start_node := 0 ]} ∅ ∅ ∅.
Proof.
  split; [by rewrite dom_empty_L|]. repeat split; try done.
  intros k dk [<- <-]%lookup_singleton_Some Hne. done.
Qed.


End dijkstra_more.

(** ** The further theorems at concrete graphs *)

Ltac by_computation := apply (bool_decide_unpack _); vm_compute; exact I.

Lemma insert_range_spec_witness :
  NoDup [4; 5]%Z ∧
  (∀ v : Z, v ∈ [4; 5]%Z → v ∉ node_values built_forwards) ∧
  value <$> insert_range built_forwards [4; 5]%Z
  = (value <$> built_forwards) ++ [4; 5]%Z.
Proof.
  assert (NoDup [4; 5]%Z) as Hnodup by by_computation.
  assert (∀ v : Z, v ∈ [4; 5]%Z → v ∉ node_values built_forwards) as Hfresh.
  { intros v Hv.
    apply elem_of_cons in Hv as [->|Hv]; [by_computation|].
    apply list_elem_of_singleton in Hv as ->. by_computation. }
  split; [exact Hnodup|]. split; [exact Hfresh|].
  exact (proj2 (proj2 (insert_range_spec built_forwards [4; 5]%Z))
           Hnodup Hfresh).
Defined.

Lemma insert_edge_spec_witness :
  edges_in_range built_forwards ∧
  (1%Z ∈ node_values built_forwards) ∧ (3%Z ∈ node_values built_forwards) ∧
  (7%Z ∉ node_values built_forwards) ∧
  insert_edge built_forwards 7%Z 1%Z 4%Z = (built_forwards, false) ∧
  ∃ old : gset (Z * Z),
    get_adjacent_nodes_values_and_weights built_forwards 1%Z = Some old ∧
    get_adjacent_nodes_values_and_weights
      (insert_edge built_forwards 1%Z 3%Z 4%Z).1 1%Z
    = Some ({[ (3%Z, 4%Z) ]} ∪ old).
Proof.
  assert (edges_in_range built_forwards) as Hr by by_computation.
  assert (1%Z ∈ node_values built_forwards) as Hfrom by by_computation.
  assert (3%Z ∈ node_values built_forwards) as Hto by by_computation.
  assert (7%Z ∉ node_values built_forwards) as Habsent by by_computation.
  split; [exact Hr|]. split; [exact Hfrom|]. split; [exact Hto|].
  split; [exact Habsent|]. split.
  - exact (proj1 (insert_edge_spec built_forwards 7%Z 1%Z 4%Z)
             (or_introl Habsent)).
  - destruct (proj2 (insert_edge_spec built_forwards 1%Z 3%Z 4%Z)
                Hr Hfrom Hto) as (old & Hold & Hnew & _).
    exists old. split; [exact Hold|exact Hnew].
Defined.

Lemma erase_edge_adjacency_witness :
  unique_values built_forwards ∧ edges_in_range built_forwards ∧
  (1%Z ∈ node_values built_forwards) ∧ (2%Z ∈ node_values built_forwards) ∧
  ∃ old : gset (Z * Z),
    get_adjacent_nodes_values_and_weights built_forwards 1%Z = Some old ∧
    get_adjacent_nodes_values (erase_edge built_forwards 1%Z 2%Z).1 1%Z
    = Some (set_map fst old ∖ {[ 2%Z ]}).
Proof.
  assert (unique_values built_forwards) as Hu by by_computation.
  assert (edges_in_range built_forwards) as Hr by by_computation.
  assert (1%Z ∈ node_values built_forwards) as Hfrom by by_computation.
  assert (2%Z ∈ node_values built_forwards) as Hto by by_computation.
  split; [exact Hu|]. split; [exact Hr|]. split; [exact Hfrom|].
  split; [exact Hto|].
  destruct (erase_edge_adjacency built_forwards 1%Z 2%Z Hu Hr Hfrom Hto)
    as (old & Hold & _ & Hnew & _).
  exists old. split; [exact Hold|exact Hnew].
Defined.

Lemma erase_spec_witness :
  unique_values built_forwards ∧
  (2%Z ∈ node_values built_forwards) ∧ (9%Z ∉ node_values built_forwards) ∧
  erase built_forwards 9%Z = (built_forwards, false) ∧
  value <$> (erase built_forwards 2%Z).1
  = filter (λ x, x ≠ 2%Z) (value <$> built_forwards).
Proof.
  assert (unique_values built_forwards) as Hu by by_computation.
  assert (2%Z ∈ node_values built_forwards) as Hin by by_computation.
  assert (9%Z ∉ node_values built_forwards) as Habsent by by_computation.
  split; [exact Hu|]. split; [exact Hin|]. split; [exact Habsent|]. split.
  - exact (proj1 (erase_spec built_forwards 9%Z) Habsent).
  - exact (proj1 (proj2 (proj2 (erase_spec built_forwards 2%Z) Hu Hin))).
Defined.

Lemma erase_adjacency_witness :
  unique_values built_forwards ∧ edges_in_range built_forwards ∧
  (3%Z ∈ node_values built_forwards) ∧ 2%Z ≠ 3%Z ∧
  ∃ old : gset (Z * Z),
    get_adjacent_nodes_values_and_weights built_forwards 2%Z = Some old ∧
    get_adjacent_nodes_values (erase built_forwards 3%Z).1 2%Z
    = Some (set_map fst old ∖ {[ 3%Z ]}).
Proof.
  assert (unique_values built_forwards) as Hu by by_computation.
  assert (edges_in_range built_forwards) as Hr by by_computation.
  assert (3%Z ∈ node_values built_forwards) as Hin by by_computation.
  assert (2%Z ≠ 3%Z) as Hne by discriminate.
  split; [exact Hu|]. split; [exact Hr|]. split; [exact Hin|].
  split; [exact Hne|].
  destruct (erase_adjacency built_forwards 3%Z 2%Z Hu Hr Hin Hne)
    as (old & Hold & _ & Hnew).
  exists old. split; [exact Hold|exact Hnew].
Defined.

Lemma erase_pos_is_erase_value_witness :
  unique_values built_forwards ∧
  built_forwards !! 1 = Some (mk_node 2%Z {[ (2, 7%Z) ]}) ∧
  erase_pos built_forwards 1 = ((erase built_forwards 2%Z).1, 1).
Proof.
  assert (unique_values built_forwards) as Hu by by_computation.
  assert (built_forwards !! 1 = Some (mk_node 2%Z {[ (2, 7%Z) ]})) as Hpos
    by (vm_compute; reflexivity).
  split; [exact Hu|]. split; [exact Hpos|].
  exact (erase_pos_is_erase_value built_forwards 1 _ Hu Hpos).
Defined.

Lemma erase_range_of_one_node_witness :
  1 < length built_forwards ∧
  erase_range built_forwards 1 2 = erase_pos built_forwards 1.
Proof.
  assert (1 < length built_forwards) as Hfirst by (vm_compute; lia).
  split; [exact Hfirst|].
  exact (erase_range_of_one_node built_forwards 1 Hfirst).
Defined.

Lemma erase_range_values_witness :
  0 ≤ 2 ∧
  value <$> (erase_range built_forwards 0 2).1
  = take 0 (value <$> built_forwards) ++ drop 2 (value <$> built_forwards).
Proof.
  assert (0 ≤ 2) as Hle by lia.
  split; [exact Hle|].
  exact (proj1 (erase_range_values built_forwards 0 2 Hle)).
Defined.

Lemma insert_keeps_adjacency_witness :
  edges_in_range built_forwards ∧
  get_adjacent_nodes_values_and_weights (insert built_forwards 9%Z).1.1 1%Z
  = get_adjacent_nodes_values_and_weights built_forwards 1%Z.
Proof.
  assert (edges_in_range built_forwards) as Hr by by_computation.
  split; [exact Hr|].
  exact (insert_keeps_adjacency built_forwards 9%Z 1%Z Hr).
Defined.

Lemma graph_eq_equivalence_witness :
  unique_values built_forwards ∧ edges_in_range built_forwards ∧
  unique_values built_backwards ∧ edges_in_range built_backwards ∧
  graph_eq built_forwards built_forwards = Some true ∧
  graph_eq built_forwards built_backwards
  = graph_eq built_backwards built_forwards.
Proof.
  assert (unique_values built_forwards) as Huf by by_computation.
  assert (edges_in_range built_forwards) as Hrf by by_computation.
  assert (unique_values built_backwards) as Hub by by_computation.
  assert (edges_in_range built_backwards) as Hrb by by_computation.
  split; [exact Huf|]. split; [exact Hrf|]. split; [exact Hub|].
  split; [exact Hrb|]. split.
  - exact (proj1 (proj1 (graph_eq_equivalence (T := Z) (W := Z))
                    built_forwards Huf Hrf)).
  - exact (proj1 (proj2 (graph_eq_equivalence (T := Z) (W := Z)))
             built_forwards built_backwards Huf Hrf Hub Hrb).
Defined.

Lemma light_edge_built (allowed : operation Z Z → Prop) :
  allowed (op_insert 1%Z) → allowed (op_insert 2%Z) →
  allowed (op_insert_edge 1%Z 2%Z 1%Z) →
  built_by allowed light_edge.
Proof.
  intros H1 H2 H3.
  change light_edge with
    (apply_operation
       (apply_operation (apply_operation [] (op_insert 1%Z)) (op_insert 2%Z))
       (op_insert_edge 1%Z 2%Z 1%Z)).
  repeat (apply built_call; [|assumption|intros ? [=]]).
  apply built_empty.
Defined.



Section traversal_witnesses.
Import Dijkstra Traversal.

Lemma non_negative_nodes_dec (g : weighted_directed_graph Z Z) :
  Decision (non_negative_nodes g).
Proof.
  apply Forall_dec. intros n. apply set_Forall_dec. intros e. apply Z_le_dec.
Defined.

Lemma non_negative_by_nodes (g : weighted_directed_graph Z Z) :
  non_negative_nodes g → non_negative g.
Proof.
  intros Hall n e Hn He.
  exact (proj1 (Forall_forall _ _) Hall n Hn e He).
Defined.

Lemma non_negative_main_graph : non_negative main_graph.
Proof.
  apply non_negative_by_nodes.
  apply (@bool_decide_unpack _ (non_negative_nodes_dec main_graph)).
  vm_compute. exact I.
Defined.

Lemma dfs_writes_reachable_witness :
  edges_in_range main_graph ∧ length main_graph + 2 ≤ 10 ∧
  ∃ written, dfs 10 main_graph 11%Z = Returned written ∧
             ∀ x, x ∈ written ↔ rtc (value_edge main_graph) 11%Z x.
Proof.
  assert (edges_in_range main_graph) as Hr by by_computation.
  assert (length main_graph + 2 ≤ 10) as Hfuel by (vm_compute; lia).
  split; [exact Hr|]. split; [exact Hfuel|].
  destruct (dfs_writes_reachable 10 main_graph 11%Z Hr Hfuel)
    as (written & Hdfs & _ & _ & Hreach).
  exists written. split; [exact Hdfs|exact Hreach].
Defined.

Lemma bfs_writes_reachable_witness :
  edges_in_range main_graph ∧ length main_graph + 2 ≤ 10 ∧
  ∃ written, bfs 10 main_graph 11%Z = Returned written ∧
             ∀ x, x ∈ written ↔ rtc (value_edge main_graph) 11%Z x.
Proof.
  assert (edges_in_range main_graph) as Hr by by_computation.
  assert (length main_graph + 2 ≤ 10) as Hfuel by (vm_compute; lia).
  split; [exact Hr|]. split; [exact Hfuel|].
  destruct (bfs_writes_reachable 10 main_graph 11%Z Hr Hfuel)
    as (written & Hbfs & _ & _ & Hreach).
  exists written. split; [exact Hbfs|exact Hreach].
Defined.

Lemma dijkstra_path_ends_witness :
  dijkstra_path 20 main_graph 11%Z 44%Z = Returned [11; 55; 66; 77; 44]%Z ∧
  (11%Z ∈ node_values main_graph) ∧ (44%Z ∈ node_values main_graph) ∧
  head [11; 55; 66; 77; 44]%Z = Some 11%Z ∧
  last [11; 55; 66; 77; 44]%Z = Some 44%Z.
Proof.
  assert (dijkstra_path 20 main_graph 11%Z 44%Z
          = Returned [11; 55; 66; 77; 44]%Z) as Hp by (vm_compute; reflexivity).
  assert (11%Z ∈ node_values main_graph) as Hstart by by_computation.
  assert (44%Z ∈ node_values main_graph) as Hend by by_computation.
  split; [exact Hp|]. split; [exact Hstart|]. split; [exact Hend|].
  exact (proj2 (dijkstra_path_ends 20 main_graph 11%Z 44%Z _ Hp) Hstart Hend).
Defined.


Lemma weighted_edge_by_computation (g : weighted_directed_graph Z Z)
    (a b w : Z) :
  match get_adjacent_nodes_values_and_weights g a with
  | Some pairs => bool_decide ((b, w) ∈ pairs)
  | None => false
  end = true →
  weighted_edge g a b w.
Proof.
  intros Hedge.
  destruct (get_adjacent_nodes_values_and_weights g a) as [pairs|] eqn:Hpairs;
    [|discriminate].
  exists pairs. split; [exact Hpairs|].
  apply bool_decide_eq_true in Hedge. exact Hedge.
Defined.

Lemma main_graph_path : path_weight main_graph 11%Z 44%Z (0 + 1 + 1 + 1 + 1)%Z.
Proof.
  apply (path_step _ _ 77%Z); [apply (path_step _ _ 66%Z);
    [apply (path_step _ _ 55%Z);
      [apply (path_step _ _ 11%Z); [apply path_here|]|]|]|];
    (apply weighted_edge_by_computation; vm_compute; reflexivity).
Defined.


End traversal_witnesses.
